(** * freckles.separation.sampling: the parameter-estimation harness

    A shallow embedding of [run_minimize], [run_fisher] and [run_emcee]
    (src/freckles/separation/sampling.py) together with the properties
    the specification states about them.

    - Python floats and NumPy [float64] values are IEEE-754 binary64
      numbers; they are modelled by [spec_float] with the operations of
      [SpecFloat] instantiated at precision 53 and maximal exponent 1024,
      so NaN, signed zeros, infinities and rounding are those of the
      machine.
    - NumPy values are either scalars or one-dimensional arrays; the
      elementwise operators broadcast and raise [ValueError] on
      incompatible shapes.
    - Exceptions the harness itself can raise are modelled by the [res]
      monad.
    - SciPy's [minimize], numdifftools' [Gradient]/[Hessian], NumPy's
      random generator and emcee's [EnsembleSampler] are external: they
      are parameters of the development (type classes), and a small
      deterministic stand-in sampler instantiates them where a concrete
      run is needed. Exceptions raised inside these primitives are not
      modelled. Console output ([print]) is not modelled either. *)

From Stdlib Require Import ZArith Floats.SpecFloat.
From stdpp Require Import base tactics option list numbers strings.

(** ** Binary64 arithmetic *)

Module F64.

Definition prec : Z := 53.
Definition emax : Z := 1024.

Definition float : Type := spec_float.

Definition mul : float → float → float := SFmul prec emax.
Definition add : float → float → float := SFadd prec emax.
Definition sub : float → float → float := SFsub prec emax.
Definition div : float → float → float := SFdiv prec emax.
Definition opp : float → float := SFopp.
Definition abs : float → float := SFabs.
Definition ltb : float → float → bool := SFltb.
Definition leb : float → float → bool := SFleb.

Definition zero : float := S754_zero false.
Definition inf : float := S754_infinity false.
Definition nan : float := S754_nan.

(** The correctly rounded value of an integer (exact below 2^53);
    this is the conversion NumPy applies when an [int] meets a
    [float64] array. *)
Definition of_Z (z : Z) : float := binary_normalize prec emax z 0 false.
Definition of_nat (n : nat) : float := of_Z (Z.of_nat n).

(** The value [1.0]. *)
Definition one : float := S754_finite false 4503599627370496 (-52).
(** The literal [1e-2], 0x1.47ae147ae147bp-7. *)
Definition c_1e_2 : float := S754_finite false 5764607523034235 (-59).
(** The literal [0.1], 0x1.999999999999ap-4. *)
Definition c_0_1 : float := S754_finite false 7205759403792794 (-56).
(** 0.001, 0x1.0624dd2f1a9fcp-10. *)
Definition c_1e_3 : float := S754_finite false 4611686018427388 (-62).

(** A negative real number or the negative zero: the values whose
    quotient [inf / x] is minus infinity. *)
Definition negative (x : float) : bool :=
  match x with
  | S754_zero s | S754_finite s _ _ => s
  | _ => false
  end.

End F64.

Abbreviation float := F64.float.

(** ** Exceptions *)

Inductive exn : Type :=
  | IndexError (index size : nat)   (* index out of bounds for axis 0 *)
  | ValueError.                     (* operands could not be broadcast *)

Inductive res (A : Type) : Type :=
  | Ok (a : A)
  | Raise (e : exn).
Arguments Ok {A} a.
Arguments Raise {A} e.

#[global] Instance res_ret : MRet res := λ A a, Ok a.
#[global] Instance res_bind : MBind res := λ A B k m,
  match m with
  | Ok a => k a
  | Raise e => Raise e
  end.

Definition is_ok {A} (m : res A) : bool :=
  match m with Ok _ => true | Raise _ => false end.

(** ** NumPy values: scalars and one-dimensional arrays *)

Inductive nd (A : Type) : Type :=
  | Scalar (x : A)
  | Vector (l : list A).
Arguments Scalar {A} x.
Arguments Vector {A} l.

Abbreviation ndarray := (nd float).

Definition nd_map {A B} (f : A → B) (a : nd A) : nd B :=
  match a with
  | Scalar x => Scalar (f x)
  | Vector l => Vector (f <$> l)
  end.

(** Broadcasting of a binary elementwise operator: a scalar, or an array
    of length one, is stretched along the other operand; two arrays of
    different lengths, none of them one, do not broadcast. *)
Definition nd_map2 {A B C} (f : A → B → C) (a : nd A) (b : nd B) : res (nd C) :=
  match a, b with
  | Scalar x, Scalar y => Ok (Scalar (f x y))
  | Scalar x, Vector l => Ok (Vector (f x <$> l))
  | Vector l, Scalar y => Ok (Vector ((λ x, f x y) <$> l))
  | Vector l1, Vector l2 =>
      if decide (length l1 = length l2) then Ok (Vector (zip_with f l1 l2))
      else match l1, l2 with
           | [x], _ => Ok (Vector (f x <$> l2))
           | _, [y] => Ok (Vector ((λ x, f x y) <$> l1))
           | _, _ => Raise ValueError
           end
  end.

Definition np_all (a : nd bool) : bool :=
  match a with
  | Scalar b => b
  | Vector l => forallb id l
  end.

Definition np_abs : ndarray → ndarray := nd_map F64.abs.
Definition np_neg : ndarray → ndarray := nd_map F64.opp.
Definition np_add : ndarray → ndarray → res ndarray := nd_map2 F64.add.
Definition np_sub : ndarray → ndarray → res ndarray := nd_map2 F64.sub.
Definition np_mul : ndarray → ndarray → res ndarray := nd_map2 F64.mul.
Definition np_div : ndarray → ndarray → res ndarray := nd_map2 F64.div.
Definition np_lt : ndarray → ndarray → res (nd bool) := nd_map2 F64.ltb.

(** [a[i] = v] on a one-dimensional array of fixed size. *)
Definition setitem (a : list float) (i : nat) (v : float) : res (list float) :=
  if decide (i < length a) then Ok (<[i:=v]> a) else Raise (IndexError i (length a)).

(** [a.reshape((-1, ncols))] of a flattened array: the row count is
    inferred from the size, which must be a multiple of [ncols]. *)
Fixpoint rows {A} (k ncols : nat) (flat : list A) : list (list A) :=
  match k with
  | 0 => []
  | S k' => take ncols flat :: rows k' ncols (drop ncols flat)
  end.

Definition reshape_rows {A} (ncols : nat) (flat : list A) : res (list (list A)) :=
  if decide (ncols = 0) then Raise ValueError
  else if decide (length flat `mod` ncols = 0)
       then Ok (rows (length flat `div` ncols) ncols flat)
       else Raise ValueError.

(** ** The likelihood and the external primitives *)

(** [func(params, *args)] with the extra arguments fixed. *)
Definition loglike : Type := list float → float.

(** Per-parameter uncertainty guesses; an entry may be [None]. *)
Abbreviation hints := (list (option float)).

(** A point of parameter space as Python holds it: what
    [isinstance(_, Iterable)] and [len] can tell apart. *)
Inductive pyvalue : Type :=
  | PyFloat (v : float)         (* a Python or NumPy scalar: not an Iterable *)
  | Array0 (v : float)          (* a zero-dimensional ndarray: an Iterable
                                   for isinstance, but without a length *)
  | Sequence (l : list float).  (* a list or a one-dimensional ndarray *)

(** [len(x)]; [None] where Python raises [TypeError]. *)
Definition py_len (x : pyvalue) : option nat :=
  match x with
  | PyFloat _ | Array0 _ => None
  | Sequence l => Some (length l)
  end.

(** [scipy.optimize.OptimizeResult], the fields the harness reads. *)
Record OptimizeResult : Type := {
  opt_x : pyvalue;
  opt_success : bool;
  opt_nfev : nat
}.

Class SciPy : Type := {
  callback_t : Type;
  options_t : Type;
  (** [minimize(fun, x0, method=, tol=, callback=, options=)] *)
  minimize : loglike → list float → string → option float →
             option callback_t → option options_t → OptimizeResult
}.

Class NumDiffTools : Type := {
  (** [nd.Gradient(f)(x)] *)
  Gradient : loglike → pyvalue → ndarray;
  (** [nd.Hessian(f)(x)] *)
  Hessian : loglike → pyvalue → list (list float)
}.

Class NumPy : Type := {
  (** the state of the global random generator *)
  rng : Type;
  (** [np.random.randn(n)] *)
  randn : nat → rng → list float * rng;
  (** [np.mean(a)] *)
  np_mean : list float → float
}.

Class Emcee : Type := {
  sampler : Type;
  kwargs : Type;
  (** [emcee.EnsembleSampler(nwalkers, ndim, func, **kwargs)] *)
  EnsembleSampler : nat → nat → loglike → kwargs → sampler;
  (** [sampler.sample(pos, iterations=...)]: the generator starts from
      the ensemble [pos] ... *)
  sample_begin : sampler → list ndarray → sampler;
  (** ... and every [next] on it advances the ensemble by one
      iteration. *)
  sample_next : sampler → sampler;
  (** [sampler.nwalkers], [sampler.ndim], [sampler.iteration] *)
  nwalkers_of : sampler → nat;
  ndim_of : sampler → nat;
  iteration : sampler → nat;
  (** [sampler.get_autocorr_time(tol=0)], one estimate per dimension *)
  get_autocorr_time : sampler → list float;
  (** [sampler.chain], indexed by walker, iteration, dimension *)
  chain : sampler → list (list (list float))
}.

(** What NumPy documents: [randn(n)] has [n] entries. *)
Class NumPyOk (N : NumPy) : Prop := {
  randn_length n g : length (randn n g).1 = n
}.

(** The shape of a three-dimensional array given as nested lists. *)
Definition has_shape {A} (a : list (list (list A))) (n0 n1 n2 : nat) : Prop :=
  length a = n0 ∧
  Forall (λ w, length w = n1 ∧ Forall (λ p, length p = n2) w) a.

(** What emcee documents about the operations above. *)
Class EmceeOk (E : Emcee) : Prop := {
  new_nwalkers W D f kw : nwalkers_of (EnsembleSampler W D f kw) = W;
  new_ndim W D f kw : ndim_of (EnsembleSampler W D f kw) = D;
  new_iteration W D f kw : iteration (EnsembleSampler W D f kw) = 0;
  begin_nwalkers s pos : nwalkers_of (sample_begin s pos) = nwalkers_of s;
  begin_ndim s pos : ndim_of (sample_begin s pos) = ndim_of s;
  begin_iteration s pos : iteration (sample_begin s pos) = iteration s;
  next_nwalkers s : nwalkers_of (sample_next s) = nwalkers_of s;
  next_ndim s : ndim_of (sample_next s) = ndim_of s;
  next_iteration s : iteration (sample_next s) = S (iteration s);
  autocorr_time_length s : length (get_autocorr_time s) = ndim_of s;
  chain_shape s : has_shape (chain s) (nwalkers_of s) (iteration s) (ndim_of s)
}.

(** ** run_minimize *)

(** The objective handed to the minimizer: [-func(params, *args)]. *)
Definition mfunc (func : loglike) : loglike := λ params, F64.opp (func params).

(** The dictionary returned by [run_minimize]. *)
Record MinimizeResult : Type := {
  params_ML : pyvalue;
  ML_success : bool;
  ML_nev : nat
}.

Definition run_minimize `{SciPy} (func : loglike) (pos0 : list float)
    (dpos : option hints) (method : string) (tol : option float)
    (callback : option callback_t) (options : option options_t) : MinimizeResult :=
  let res := minimize (mfunc func) pos0 method tol callback options in
  let x := match opt_x res with
           | PyFloat v => Sequence [v]   (* not isinstance(res.x, Iterable) *)
           | Array0 v => Array0 v
           | Sequence l => Sequence l
           end in
  {| params_ML := x; ML_success := opt_success res; ML_nev := opt_nfev res |}.

(** ** run_fisher *)

(** The dictionary returned by [run_fisher]; [fisher_ML_success] is the
    entry ['ML_success'], [None] standing for Python's [None]. *)
Record FisherResult : Type := {
  params_cent : pyvalue;
  fisher_m : list (list float);
  fisher_v : ndarray;
  fisher_ML_success : option bool
}.

Definition run_fisher `{SciPy} `{NumDiffTools} (func : loglike) (pos0 : list float)
    (dpos : option hints) (ml_first : bool) (ml_method : string)
    (ml_options : option options_t) : FisherResult :=
  let '(pcent, ml_success) :=
    if ml_first then
      let res := minimize (mfunc func) pos0 ml_method None None ml_options in
      (opt_x res, Some (opt_success res))
    else (Sequence pos0, None) in
  let fisher_v := np_neg (Gradient (mfunc func) pcent) in
  let fisher_m := Hessian (mfunc func) pcent in
  {| params_cent := pcent; fisher_m := fisher_m; fisher_v := fisher_v;
     fisher_ML_success := ml_success |}.

(** ** run_emcee *)

(** The body of the loop over [enumerate(dpos)]: the amplitude written
    to [dp[i]] for the hint [d]. *)
Definition displacement (d : option float) : float :=
  match d with
  | None => F64.c_1e_2
  | Some d => if F64.leb d F64.zero then F64.c_1e_2 else F64.mul d F64.c_0_1
  end.

Fixpoint fill_dp (dp : list float) (i : nat) (dpos : hints) : res (list float) :=
  match dpos with
  | [] => Ok dp
  | d :: dpos' => dp' ← setitem dp i (displacement d); fill_dp dp' (S i) dpos'
  end.

(** "Set up initial displacement amplitudes": the default hints, the
    zero-initialised [dp] and the loop filling it. *)
Definition default_dpos (ndim : nat) : hints :=
  replicate ndim (Some (F64.mul F64.c_1e_2 F64.one)).

Definition initial_dp (ndim : nat) (dpos : option hints) : res (list float) :=
  let dpos := match dpos with
              | None => default_dpos ndim
              | Some dpos => dpos
              end in
  fill_dp (replicate ndim F64.zero) 0 dpos.

(** [[pos0 + dp * np.random.randn(ndim) for i in range(nwalkers)]] *)
Fixpoint initial_positions `{NumPy} (nwalkers ndim : nat) (pos0 dp : list float)
    (g : rng) : res (list ndarray * rng) :=
  match nwalkers with
  | 0 => Ok ([], g)
  | S n =>
      let '(z, g) := randn ndim g in
      t ← np_mul (Vector dp) (Vector z);
      p ← np_add (Vector pos0) t;
      '(ps, g) ← initial_positions n ndim pos0 dp g;
      Ok (p :: ps, g)
  end.

(** The convergence test of one check:
    [np.all(tau * conv_F < sampler.iteration)
     & np.all(np.abs(old_tau - tau) / tau < conv_perc)]. *)
Definition converged (conv_F conv_perc : float) (old_tau tau : ndarray)
    (it : nat) : res bool :=
  scaled ← np_mul tau (Scalar conv_F);
  long_enough ← np_lt scaled (Scalar (F64.of_nat it));
  diff ← np_sub old_tau tau;
  change ← np_div (np_abs diff) tau;
  stable ← np_lt change (Scalar conv_perc);
  Ok (np_all long_enough && np_all stable).

(** The entries of the autocorrelation trace. *)
Abbreviation trace := (list (nat * float)).

(** The loop [for _ in sampler.sample(pos, iterations=nsamps)], by the
    number of iterations the generator still has to run: it advances
    the sampler, then the body runs. *)
Fixpoint sampling_loop `{NumPy} `{Emcee} (conv_F conv_perc : float) (budget : nat)
    (s : sampler) (old_tau : ndarray) (autocorr : trace) : res (sampler * trace) :=
  match budget with
  | 0 => Ok (s, autocorr)
  | S budget =>
      let s := sample_next s in
      if negb (iteration s `mod` 100 =? 0) then
        sampling_loop conv_F conv_perc budget s old_tau autocorr    (* continue *)
      else
        let tau := get_autocorr_time s in
        let autocorr := autocorr ++ [(iteration s, np_mean tau)] in
        c ← converged conv_F conv_perc old_tau (Vector tau) (iteration s);
        if c : bool then Ok (s, autocorr)                         (* break *)
        else sampling_loop conv_F conv_perc budget s (Vector tau) autocorr
  end.

(** [run_emcee] up to the end of the loop: the sampler as the loop left
    it and the trace. *)
Definition emcee_sampling `{NumPy} `{Emcee} (func : loglike) (pos0 : list float)
    (dpos : option hints) (nwalkers nsamps : nat) (conv_F conv_perc : float)
    (kw : kwargs) (g : rng) : res (sampler * trace) :=
  let ndim := length pos0 in
  dp ← initial_dp ndim dpos;
  '(pos, _) ← initial_positions nwalkers ndim pos0 dp g;
  let sampler := EnsembleSampler nwalkers ndim func kw in
  sampling_loop conv_F conv_perc nsamps (sample_begin sampler pos) (Scalar F64.inf) [].

(** [sampler.chain[:, nburn:, :].reshape((-1, ndim))] *)
Definition burned_pool (nburn ndim : nat) (chain : list (list (list float)))
  : res (list (list float)) :=
  reshape_rows ndim (concat (concat (drop nburn <$> chain))).

(** The dictionary returned by [run_emcee]. *)
Record EmceeResult : Type := {
  chains : list (list float);
  autocorr : trace
}.

Definition run_emcee `{NumPy} `{Emcee} (func : loglike) (pos0 : list float)
    (dpos : option hints) (nwalkers nsamps nburn : nat)
    (conv_F conv_perc : float) (kw : kwargs) (g : rng) : res EmceeResult :=
  '(sampler, autocorr) ← emcee_sampling func pos0 dpos nwalkers nsamps
                                       conv_F conv_perc kw g;
  samples ← burned_pool nburn (length pos0) (chain sampler);
  Ok {| chains := samples; autocorr := autocorr |}.

(** ** Stand-ins for the external primitives

    Deterministic instances of the four interfaces, small enough to run
    the harness on concrete inputs. *)

Module StandIn.

(** A minimizer that stops at its starting point; like SciPy's Powell
    method it squeezes its solution, so that a one-parameter solution
    comes back as a zero-dimensional array. *)
#[export] Instance scipy : SciPy := {|
  callback_t := unit;
  options_t := unit;
  minimize f x0 _ _ _ _ :=
    {| opt_x := match x0 with [v] => Array0 v | _ => Sequence x0 end;
       opt_success := true;
       opt_nfev := 1 |}
|}.

Definition point (x : pyvalue) : list float :=
  match x with PyFloat v | Array0 v => [v] | Sequence l => l end.

Definition to_list (a : ndarray) : list float :=
  match a with Scalar v => [v] | Vector l => l end.

(** [p] moved by [h] along the axis [i]. *)
Definition nudge (p : list float) (i : nat) (h : float) : list float :=
  alter (λ v, F64.add v h) i p.

Definition step : float := F64.c_1e_2.

(** Central differences with a fixed step. *)
Definition central (f : loglike) (p : list float) (i : nat) : float :=
  F64.div (F64.sub (f (nudge p i step)) (f (nudge p i (F64.opp step))))
          (F64.add step step).

Definition second (f : loglike) (p : list float) (i j : nat) : float :=
  F64.div (F64.sub (central f (nudge p j step) i)
                   (central f (nudge p j (F64.opp step)) i))
          (F64.add step step).

#[export] Instance numdifftools : NumDiffTools := {|
  Gradient f a :=
    let p := point a in Vector (central f p <$> seq 0 (length p));
  Hessian f a :=
    let p := point a in
    (λ i, second f p i <$> seq 0 (length p)) <$> seq 0 (length p)
|}.

(** A counter in place of the random generator: the n-th call of
    [randn] returns n, n, ..., n. *)
#[export] Instance numpy : NumPy := {|
  rng := nat;
  randn n g := (replicate n (F64.of_nat g), S g);
  np_mean l := F64.div (foldl F64.add F64.zero l) (F64.of_nat (length l))
|}.

(** A sampler whose walkers never leave their starting points and
    whose autocorrelation estimate is the same number in every
    dimension at every check; that number is its only option. *)
Record frozen : Type := {
  f_nwalkers : nat;
  f_ndim : nat;
  f_iteration : nat;
  f_tau : float;
  f_coords : list (list float)
}.

#[export] Instance emcee : Emcee := {|
  sampler := frozen;
  kwargs := float;
  EnsembleSampler W D _ tau :=
    {| f_nwalkers := W; f_ndim := D; f_iteration := 0; f_tau := tau;
       f_coords := [] |};
  sample_begin s pos :=
    {| f_nwalkers := f_nwalkers s; f_ndim := f_ndim s;
       f_iteration := f_iteration s; f_tau := f_tau s;
       f_coords := to_list <$> pos |};
  sample_next s :=
    {| f_nwalkers := f_nwalkers s; f_ndim := f_ndim s;
       f_iteration := S (f_iteration s); f_tau := f_tau s;
       f_coords := f_coords s |};
  nwalkers_of := f_nwalkers;
  ndim_of := f_ndim;
  iteration := f_iteration;
  get_autocorr_time s := replicate (f_ndim s) (f_tau s);
  chain s :=
    (λ p, replicate (f_iteration s) (resize (f_ndim s) F64.zero p))
      <$> resize (f_nwalkers s) [] (f_coords s)
|}.

(** The option of the sampler and the state of the generator. *)
Definition tau_is (t : float) : kwargs := t.
Definition seed (n : nat) : rng := n.

(** The log-likelihood [-(p0^2 + p1^2 + ...)]. *)
Definition bowl : loglike :=
  λ p, F64.opp (foldl (λ acc v, F64.add acc (F64.mul v v)) F64.zero p).

(** -0.2, 0x1.999999999999ap-3 with the sign set. *)
Definition minus_fifth : float := S754_finite true 7205759403792794 (-55).
(** 50.0 *)
Definition fifty : float := F64.of_nat 50.

End StandIn.

Import StandIn.

(** ** Notions used in the statements *)

(** The entry of a broadcast operand seen from dimension [i]. *)
Definition nd_item {A} (a : nd A) (i : nat) : option A :=
  match a with
  | Scalar v => Some v
  | Vector l => l !! i
  end.

(** The baseline of a check is the scalar infinity or the estimates of
    the previous check. *)
Definition baseline_for (old_tau : ndarray) (tau : list float) : Prop :=
  match old_tau with
  | Scalar _ => True
  | Vector l => length l = length tau
  end.

(** The convergence criterion in the words of the specification: in
    every dimension the autocorrelation time times [conv_F] is below the
    iteration count, and in every dimension the relative change of the
    autocorrelation time since the previous check is below [conv_perc]. *)
Definition relative_change (old tau : float) : float :=
  F64.div (F64.abs (F64.sub old tau)) tau.

Definition criterion (conv_F conv_perc : float) (old_tau : ndarray)
    (tau : list float) (it : nat) : Prop :=
  (∀ i t, tau !! i = Some t →
     F64.ltb (F64.mul t conv_F) (F64.of_nat it) = true) ∧
  (∀ i t, tau !! i = Some t →
     ∃ o, nd_item old_tau i = Some o ∧
          F64.ltb (relative_change o t) conv_perc = true).

(** The iterations at which a check is due. *)
Definition check_due (it : nat) : Prop := it `mod` 100 = 0.

#[global] Instance check_due_dec it : Decision (check_due it).
Proof. unfold check_due. apply _. Defined.

(** ** clean_pixels *)




(** A value that is not below zero: +0, a positive number, plus infinity
    or NaN. *)
Definition not_below_zero (v : float) : Prop :=
  F64.ltb v F64.zero = false ∧ F64.negative v = false.

(** ** HealpixInputs (freckles/io.py)

    Two- and three-dimensional arrays are a shape and a cell function;
    cells outside the shape are never read by the operations below.
    [hp.nside2npix] and [hp.read_map] are external, as is the content
    [np.empty] leaves in a new array. *)

Record array2 : Type := {
  shape2 : nat * nat;
  get2 : nat → nat → float
}.

Record array3 : Type := {
  shape3 : nat * nat * nat;
  get3 : nat → nat → nat → float
}.

Class Healpy : Type := {
  (** [hp.nside2npix(nside)] *)
  nside2npix : nat → nat;
  (** [np.array(hp.read_map(fname, field=fields))], one row per field *)
  read_map : string → list nat → array2
}.

(** The attributes of a [HealpixInputs] object. [indices] is [None] for
    the ellipsis; the three [partial_] attributes do not exist before
    [extract_with_mask] has set them. *)
Record HealpixInputs : Type := {
  npol : nat;
  npix : nat;
  nside : nat;
  nfreqs : nat;
  data_shape : nat * nat * nat;
  data : array3;
  variance : array3;
  indices : option (list nat);
  partial_indices : option (list nat);
  partial_data : option array3;
  partial_var : option array3
}.

(** [HealpixInputs(nside, nfreqs, npol, idx)]; [junk_data] and
    [junk_var] are what the memory handed out by the two [np.empty]
    calls happens to hold. *)
Definition HealpixInputs_init `{Healpy} (nside nfreqs npol : nat)
    (idx : option (list nat)) (junk_data junk_var : nat → nat → nat → float)
  : HealpixInputs :=
  let npix := nside2npix nside in
  let data_shape := (npol, npix, nfreqs) in
  {| npol := npol; npix := npix; nside := nside; nfreqs := nfreqs;
     data_shape := data_shape;
     data := {| shape3 := data_shape; get3 := junk_data |};
     variance := {| shape3 := data_shape; get3 := junk_var |};
     indices := idx;
     partial_indices := None; partial_data := None; partial_var := None |}.

(** The first index of [idx] that is out of bounds for an axis of the
    given size. *)
Definition first_out_of_bounds (size : nat) (idx : list nat) : option nat :=
  head (filter (λ j, size ≤ j) idx).

(** [a[:, indices]] *)
Definition select_columns (a : array2) (ix : option (list nat)) : res array2 :=
  match ix with
  | None => Ok a
  | Some idx =>
      match first_out_of_bounds (shape2 a).2 idx with
      | Some j => Raise (IndexError j (shape2 a).2)
      | None => Ok {| shape2 := ((shape2 a).1, length idx);
                      get2 := λ r c, get2 a r (default 0 (idx !! c)) |}
      end
  end.

(** [a[:, idx, :]] *)
Definition select_pixels (a : array3) (idx : list nat) : res array3 :=
  let '(n0, n1, n2) := shape3 a in
  match first_out_of_bounds n1 idx with
  | Some j => Raise (IndexError j n1)
  | None => Ok {| shape3 := (n0, length idx, n2);
                  get3 := λ p c f, get3 a p (default 0 (idx !! c)) f |}
  end.

(** [a[..., i] = v]: the index is resolved first, then [v] is broadcast
    to the first two axes of [a]. *)
Definition assign_last (a : array3) (i : nat) (v : array2) : res array3 :=
  let '(n0, n1, n2) := shape3 a in
  let '(m0, m1) := shape2 v in
  if decide (n2 ≤ i) then Raise (IndexError i n2)
  else if decide ((m0 = n0 ∨ m0 = 1) ∧ (m1 = n1 ∨ m1 = 1)) then
    Ok {| shape3 := shape3 a;
          get3 := λ p c f,
            if decide (f = i)
            then get2 v (if decide (m0 = 1) then 0 else p)
                        (if decide (m1 = 1) then 0 else c)
            else get3 a p c f |}
  else Raise ValueError.

Definition set_data (h : HealpixInputs) (d : array3) : HealpixInputs :=
  {| npol := npol h; npix := npix h; nside := nside h; nfreqs := nfreqs h;
     data_shape := data_shape h; data := d; variance := variance h;
     indices := indices h; partial_indices := partial_indices h;
     partial_data := partial_data h; partial_var := partial_var h |}.

Definition set_variance (h : HealpixInputs) (d : array3) : HealpixInputs :=
  {| npol := npol h; npix := npix h; nside := nside h; nfreqs := nfreqs h;
     data_shape := data_shape h; data := data h; variance := d;
     indices := indices h; partial_indices := partial_indices h;
     partial_data := partial_data h; partial_var := partial_var h |}.

(** The loop of [read_data_from_fits] from the file number [i] on: the
    object as the loop leaves it and the exception that ended it, if
    any. *)
Fixpoint read_data_loop `{Healpy} (h : HealpixInputs) (i : nat)
    (files : list string) (fields : list nat) : HealpixInputs * option exn :=
  match files with
  | [] => (h, None)
  | fname :: files =>
      match v ← select_columns (read_map fname fields) (indices h);
            assign_last (data h) i v with
      | Ok d => read_data_loop (set_data h d) (S i) files fields
      | Raise e => (h, Some e)
      end
  end.

Definition read_data_from_fits `{Healpy} (h : HealpixInputs)
    (data_iterator : list string) (fields : list nat)
  : HealpixInputs * option exn :=
  read_data_loop h 0 data_iterator fields.

Fixpoint read_variance_loop `{Healpy} (h : HealpixInputs) (i : nat)
    (files : list string) (fields : list nat) : HealpixInputs * option exn :=
  match files with
  | [] => (h, None)
  | fname :: files =>
      match v ← select_columns (read_map fname fields) (indices h);
            assign_last (variance h) i v with
      | Ok d => read_variance_loop (set_variance h d) (S i) files fields
      | Raise e => (h, Some e)
      end
  end.

Definition read_variance_from_fits `{Healpy} (h : HealpixInputs)
    (var_iterator : list string) (fields : list nat)
  : HealpixInputs * option exn :=
  read_variance_loop h 0 var_iterator fields.

(** [np.where(mask == 1)[0]] on a one-dimensional integer mask, from the
    position [i] on. *)
Fixpoint where_one (i : nat) (mask : list Z) : list nat :=
  match mask with
  | [] => []
  | m :: mask => if decide (m = 1%Z) then i :: where_one (S i) mask
                 else where_one (S i) mask
  end.

(** [extract_with_mask]: the three assignments in turn; an exception
    leaves the attributes already assigned in place. *)
Definition extract_with_mask (h : HealpixInputs) (mask : list Z)
  : HealpixInputs * option exn :=
  let idx := where_one 0 mask in
  let h1 :=
    {| npol := npol h; npix := npix h; nside := nside h; nfreqs := nfreqs h;
       data_shape := data_shape h; data := data h; variance := variance h;
       indices := indices h; partial_indices := Some idx;
       partial_data := partial_data h; partial_var := partial_var h |} in
  match select_pixels (data h1) idx with
  | Raise e => (h1, Some e)
  | Ok pd =>
      let h2 :=
        {| npol := npol h1; npix := npix h1; nside := nside h1;
           nfreqs := nfreqs h1; data_shape := data_shape h1; data := data h1;
           variance := variance h1; indices := indices h1;
           partial_indices := partial_indices h1;
           partial_data := Some pd; partial_var := partial_var h1 |} in
      match select_pixels (variance h2) idx with
      | Raise e => (h2, Some e)
      | Ok pv =>
          ({| npol := npol h2; npix := npix h2; nside := nside h2;
              nfreqs := nfreqs h2; data_shape := data_shape h2; data := data h2;
              variance := variance h2; indices := indices h2;
              partial_indices := partial_indices h2;
              partial_data := partial_data h2; partial_var := Some pv |}, None)
      end
  end.

(** The object with the roles of [data] and [variance] exchanged. *)
Definition swap_maps (h : HealpixInputs) : HealpixInputs :=
  {| npol := npol h; npix := npix h; nside := nside h; nfreqs := nfreqs h;
     data_shape := data_shape h; data := variance h; variance := data h;
     indices := indices h; partial_indices := partial_indices h;
     partial_data := partial_data h; partial_var := partial_var h |}.

(** A stand-in for healpy: twelve pixels per unit of [nside] squared, and
    maps whose cell (field r, pixel c) holds [r + c + len(fname)]. *)
Module StandInIo.

#[export] Instance healpy : Healpy := {|
  nside2npix n := 12 * n * n;
  read_map fname fields :=
    {| shape2 := (length fields, 12);
       get2 := λ r c, F64.of_nat (r + c + String.length fname) |}
|}.

Definition junk : nat → nat → nat → float := λ _ _ _, F64.nan.

End StandInIo.

Import StandInIo.

(** The draws of [nwalkers] successive calls of [randn(ndim)] and the
    state they leave the generator in. *)
Fixpoint randn_draws `{NumPy} (nwalkers ndim : nat) (g : rng)
  : list (list float) * rng :=
  match nwalkers with
  | 0 => ([], g)
  | S n =>
      let '(z, g) := randn ndim g in
      let '(zs, g) := randn_draws n ndim g in
      (z :: zs, g)
  end.

(** The baseline [old_tau] in force after [m] turns of the loop that all
    went on, started at the sampler [s] with the baseline [old_tau]: a
    turn at which a check is due replaces it by the estimates of that
    turn. *)
Fixpoint baseline_after `{Emcee} (m : nat) (s : sampler) (old_tau : ndarray)
  : ndarray :=
  match m with
  | 0 => old_tau
  | S m =>
      let s := sample_next s in
      baseline_after m s
        (if decide (check_due (iteration s)) then Vector (get_autocorr_time s)
         else old_tau)
  end.

(** * Properties *)

(** ** Binary64 facts *)

Lemma F64_opp_involutive x : F64.opp (F64.opp x) = x.
Proof. destruct x as [s|s| |s m e]; simpl; by rewrite ?negb_involutive. Qed.

Lemma F64_default_hint : F64.mul F64.c_1e_2 F64.one = F64.c_1e_2.
Proof. vm_compute. reflexivity. Qed.

Lemma F64_default_displacement :
  displacement (Some (F64.mul F64.c_1e_2 F64.one)) = F64.c_1e_3.
Proof. vm_compute. reflexivity. Qed.


(** ... whereas for a negative number it is minus infinity, below every
    tolerance other than NaN and minus infinity. *)
Lemma relative_change_inf_negative t perc :
  F64.negative t = true →
  F64.ltb (relative_change F64.inf t) perc =
    match perc with S754_nan | S754_infinity true => false | _ => true end.
Proof.
  unfold relative_change.
  destruct t as [[]|[]| |[] m e]; simpl; try discriminate; intros _;
    by destruct perc as [?|[]| |? ? ?].
Qed.

(** ** The exception monad *)

Lemma bind_Ok {A B} (m : res A) (k : A → res B) b :
  m ≫= k = Ok b → ∃ a, m = Ok a ∧ k a = Ok b.
Proof. destruct m as [a|e]; simpl; [eauto | discriminate]. Qed.

(** ** Initial displacement amplitudes *)

Lemma setitem_ok a i v : i < length a → setitem a i v = Ok (<[i:=v]> a).
Proof. intros Hi. unfold setitem. by rewrite decide_True. Qed.

Lemma setitem_out_of_bounds a i v :
  length a ≤ i → setitem a i v = Raise (IndexError i (length a)).
Proof. intros Hi. unfold setitem. rewrite decide_False; [done | lia]. Qed.

(** The loop overwrites the entries [i], [i+1], ... one hint at a time
    and leaves the others as they were. *)
Lemma fill_dp_within dpos : ∀ dp i,
  i + length dpos ≤ length dp →
  fill_dp dp i dpos =
    Ok (take i dp ++ (displacement <$> dpos) ++ drop (i + length dpos) dp).
Proof.
  induction dpos as [|d dpos IH]; intros dp i Hlen; simpl in *.
  - by rewrite Nat.add_0_r, take_drop.
  - rewrite setitem_ok by lia. simpl.
    rewrite IH by (rewrite length_insert; lia).
    rewrite (take_S_r _ i (displacement d))
      by (apply list_lookup_insert_eq; lia).
    rewrite take_insert_ge by lia.
    rewrite drop_insert_lt by lia.
    rewrite <- (assoc_L (++)). simpl.
    by rewrite Nat.add_succ_r.
Qed.

(** A hint beyond the end of [dp] stops the loop at the first index out
    of range. *)
Lemma fill_dp_beyond dpos : ∀ dp i,
  i ≤ length dp → length dp < i + length dpos →
  fill_dp dp i dpos = Raise (IndexError (length dp) (length dp)).
Proof.
  induction dpos as [|d dpos IH]; intros dp i Hi Hlen; simpl in *; [lia|].
  destruct (decide (i = length dp)) as [->|Hne].
  - by rewrite setitem_out_of_bounds.
  - rewrite setitem_ok by lia. simpl.
    rewrite IH; rewrite ?length_insert; [done | lia | lia].
Qed.

Lemma initial_dp_hints ndim (dpos : hints) :
  length dpos ≤ ndim →
  initial_dp ndim (Some dpos) =
    Ok ((displacement <$> dpos) ++ replicate (ndim - length dpos) F64.zero).
Proof.
  intros Hlen. unfold initial_dp.
  rewrite fill_dp_within by (rewrite length_replicate; lia).
  by rewrite drop_replicate.
Qed.

Lemma initial_dp_absent ndim :
  initial_dp ndim None = Ok (replicate ndim F64.c_1e_3).
Proof.
  unfold initial_dp, default_dpos.
  rewrite fill_dp_within by (rewrite !length_replicate; lia).
  rewrite fmap_replicate, F64_default_displacement, length_replicate.
  rewrite drop_replicate, Nat.sub_diag. simpl. by rewrite app_nil_r.
Qed.

Lemma initial_dp_length ndim dpos dp :
  initial_dp ndim dpos = Ok dp → length dp = ndim.
Proof.
  destruct dpos as [dpos|].
  - destruct (decide (length dpos ≤ ndim)) as [Hle|Hgt].
    + rewrite initial_dp_hints by done. intros [= <-].
      rewrite length_app, length_fmap, length_replicate. lia.
    + unfold initial_dp.
      rewrite fill_dp_beyond by (rewrite ?length_replicate; lia).
      discriminate.
  - rewrite initial_dp_absent. intros [= <-]. by rewrite length_replicate.
Qed.

(** C1, as the code has it. Entry by entry the rule is the stated one:
    for hints no longer than the parameter vector [dp] is produced, has
    [ndim] entries, and [dp[i]] is 0.01 where [uncertainty_hints[i]] is
    [None] or not above zero and [uncertainty_hints[i] * 0.1] elsewhere.
    When the hints are absent altogether they default to 0.01 each and go
    through the same rule, so every [dp[i]] is 0.01 * 0.1 = 0.001. *)
Theorem initial_dp_rule (ndim : nat) (dpos : hints) :
  length dpos ≤ ndim →
  (∃ dp, initial_dp ndim (Some dpos) = Ok dp ∧ length dp = ndim ∧
     ∀ i d, dpos !! i = Some d →
       match d with
       | None => dp !! i = Some F64.c_1e_2
       | Some h =>
           if F64.leb h F64.zero then dp !! i = Some F64.c_1e_2
           else dp !! i = Some (F64.mul h F64.c_0_1)
       end) ∧
  initial_dp ndim None = Ok (replicate ndim F64.c_1e_3).
Proof.
  intros Hlen. split; [|apply initial_dp_absent].
  eexists. split; [by apply initial_dp_hints|]. split.
  - rewrite length_app, length_fmap, length_replicate. lia.
  - intros i d Hd.
    assert ((displacement <$> dpos) !! i = Some (displacement d)) as Hi
      by (by rewrite list_lookup_fmap, Hd).
    apply (lookup_app_l_Some _ (replicate (ndim - length dpos) F64.zero)) in Hi.
    rewrite Hi. destruct d as [h|]; simpl; [|done].
    by destruct (F64.leb h F64.zero).
Qed.

Lemma initial_dp_rule_witness :
  length [Some F64.one; None; Some (F64.opp F64.one)] ≤ 4 ∧
  ((∃ dp, initial_dp 4 (Some [Some F64.one; None; Some (F64.opp F64.one)]) = Ok dp ∧
      length dp = 4 ∧
      ∀ i d, [Some F64.one; None; Some (F64.opp F64.one)] !! i = Some d →
        match d with
        | None => dp !! i = Some F64.c_1e_2
        | Some h =>
            if F64.leb h F64.zero then dp !! i = Some F64.c_1e_2
            else dp !! i = Some (F64.mul h F64.c_0_1)
        end) ∧
   initial_dp 4 None = Ok (replicate 4 F64.c_1e_3)).
Proof.
  split; [simpl; lia|].
  apply (initial_dp_rule 4 [Some F64.one; None; Some (F64.opp F64.one)]).
  simpl; lia.
Defined.

(** C1 as stated fails where the hints are absent: the amplitudes are
    0.001, not 0.01. *)
Lemma initial_dp_absent_is_not_1e_2 :
  initial_dp 2 None = Ok [F64.c_1e_3; F64.c_1e_3] ∧
  initial_dp 2 None ≠ Ok [F64.c_1e_2; F64.c_1e_2].
Proof. split; [vm_compute; reflexivity | vm_compute; discriminate]. Qed.

(** ** Hints of the wrong length *)

Lemma emcee_sampling_long_hints `{NumPy} `{Emcee} func pos0 (dpos : hints)
    nwalkers nsamps conv_F conv_perc kw g :
  length pos0 < length dpos →
  emcee_sampling func pos0 (Some dpos) nwalkers nsamps conv_F conv_perc kw g =
    Raise (IndexError (length pos0) (length pos0)).
Proof.
  intros Hlen. unfold emcee_sampling, initial_dp.
  rewrite fill_dp_beyond; rewrite ?length_replicate; [done | lia | lia].
Qed.

(** C2, as the code has it. Nothing in the harness compares the two
    lengths. Hints longer than the parameter vector make [run_emcee]
    raise the index error of the first write past the end of [dp]; hints
    shorter than it raise nothing while [dp] is set up, the missing
    amplitudes staying at the zero [dp] was initialised with; and
    [run_minimize] and [run_fisher] never look at the hints. *)
Theorem hints_length_mismatch `{SciPy} `{NumDiffTools} `{NumPy} `{Emcee}
    (func : loglike) (pos0 : list float) (dpos : hints)
    (nwalkers nsamps nburn : nat) (conv_F conv_perc : float) (kw : kwargs)
    (g : rng) (method : string) (tol : option float)
    (callback : option callback_t) (options : option options_t)
    (ml_first : bool) :
  length dpos ≠ length pos0 →
  (length pos0 < length dpos →
     run_emcee func pos0 (Some dpos) nwalkers nsamps nburn conv_F conv_perc kw g =
       Raise (IndexError (length pos0) (length pos0))) ∧
  (length dpos < length pos0 →
     initial_dp (length pos0) (Some dpos) =
       Ok ((displacement <$> dpos) ++
           replicate (length pos0 - length dpos) F64.zero)) ∧
  run_minimize func pos0 (Some dpos) method tol callback options =
    run_minimize func pos0 None method tol callback options ∧
  run_fisher func pos0 (Some dpos) ml_first method options =
    run_fisher func pos0 None ml_first method options.
Proof.
  intros _. repeat split.
  - intros Hlen. unfold run_emcee.
    by rewrite emcee_sampling_long_hints.
  - intros Hlen. apply initial_dp_hints. lia.
Qed.

Lemma hints_length_mismatch_witness :
  length [Some F64.one; None; None] ≠ length [F64.one; F64.zero] ∧
  run_emcee bowl [F64.one; F64.zero] (Some [Some F64.one; None; None])
            4 10 2 fifty F64.c_1e_2 (tau_is F64.one) (seed 0) =
    Raise (IndexError 2 2).
Proof.
  split; [simpl; lia|].
  apply (hints_length_mismatch bowl [F64.one; F64.zero]
           [Some F64.one; None; None] 4 10 2 fifty F64.c_1e_2
           (tau_is F64.one) (seed 0) "Powell" None None None false);
    simpl; lia.
Defined.

(** C2 as stated fails: with one hint for two parameters no estimation
    function raises. [dp] is padded with a zero, the sampling run
    completes, and the minimizer and Fisher runs return their results. *)
Lemma short_hints_are_accepted :
  length [Some F64.one] ≠ length [F64.one; F64.zero] ∧
  initial_dp 2 (Some [Some F64.one]) = Ok [F64.c_0_1; F64.zero] ∧
  is_ok (run_emcee bowl [F64.one; F64.zero] (Some [Some F64.one])
                   4 10 2 fifty F64.c_1e_2 (tau_is F64.one) (seed 0)) = true ∧
  params_ML (run_minimize bowl [F64.one; F64.zero] (Some [Some F64.one])
                          "Powell" None None None) = Sequence [F64.one; F64.zero] ∧
  params_cent (run_fisher bowl [F64.one; F64.zero] (Some [Some F64.one])
                          false "Powell" None) = Sequence [F64.one; F64.zero].
Proof. repeat split; try (vm_compute; reflexivity). simpl; lia. Qed.

(** ** run_minimize and run_fisher *)

(** C3. [run_minimize] means to hand back a sequence whatever the
    number of parameters and wraps a solution that is not an Iterable
    into a one-element list, which then has length 1. A zero-dimensional
    array, the form in which a minimizer that squeezes its result returns
    a one-parameter solution, is an Iterable for [isinstance]: it is
    handed back as it is and has no length. So it is at the stand-in
    minimizer, which squeezes like the Powell method: for one parameter
    ['params_ML'] has no length. *)
Theorem run_minimize_zero_dim_not_wrapped `{SciPy} (func : loglike)
    (pos0 : list float) (dpos : option hints) (method : string)
    (tol : option float) (callback : option callback_t)
    (options : option options_t) :
  let res := minimize (mfunc func) pos0 method tol callback options in
  let r := run_minimize func pos0 dpos method tol callback options in
  py_len (params_ML r) =
    match opt_x res with
    | PyFloat _ => Some 1
    | Array0 _ => None
    | Sequence l => Some (length l)
    end ∧
  params_ML r =
    match opt_x res with
    | PyFloat v => Sequence [v]
    | Array0 v => Array0 v
    | Sequence l => Sequence l
    end ∧
  length [F64.c_0_1] = 1 ∧
  params_ML (@run_minimize scipy bowl [F64.c_0_1] None "Powell" None None None)
    = Array0 F64.c_0_1 ∧
  py_len (params_ML (@run_minimize scipy bowl [F64.c_0_1] None "Powell"
                                   None None None))
    = None.
Proof.
  intros res r. split; [|split; [|split; [|split]]].
  - unfold r, res, run_minimize. cbn [params_ML]. by destruct (opt_x _).
  - unfold r, res, run_minimize. cbn [params_ML]. by destruct (opt_x _).
  - reflexivity.
  - vm_compute. reflexivity.
  - vm_compute. reflexivity.
Qed.

(** C7. Without [ml_first] the result carries [None] as ['ML_success']
    and the starting point itself as centre; with [ml_first] the centre
    is the solution of the minimizer and ['ML_success'] its success
    flag. *)
Theorem run_fisher_centre `{SciPy} `{NumDiffTools} (func : loglike)
    (pos0 : list float) (dpos : option hints) (ml_method : string)
    (ml_options : option options_t) :
  (fisher_ML_success (run_fisher func pos0 dpos false ml_method ml_options) = None ∧
   params_cent (run_fisher func pos0 dpos false ml_method ml_options) = Sequence pos0) ∧
  (params_cent (run_fisher func pos0 dpos true ml_method ml_options) =
     opt_x (minimize (mfunc func) pos0 ml_method None None ml_options) ∧
   fisher_ML_success (run_fisher func pos0 dpos true ml_method ml_options) =
     Some (opt_success (minimize (mfunc func) pos0 ml_method None None ml_options))).
Proof. done. Qed.

Lemma np_neg_involutive a : np_neg (np_neg a) = a.
Proof.
  destruct a as [v|l]; simpl; f_equal; [apply F64_opp_involutive|].
  rewrite <- list_fmap_compose. rewrite <- (list_fmap_id l) at 2.
  apply list_fmap_ext. intros i v _. apply F64_opp_involutive.
Qed.

(** C8. The stored ['fisher_v'] is the negated gradient of the negated
    log-likelihood at the centre and ['fisher_m'] the Hessian of the
    negated log-likelihood at the same centre; where the differentiation
    primitive maps the negated function to the negated gradient, the two
    negations cancel and ['fisher_v'] is the gradient of the
    log-likelihood itself. *)
Theorem run_fisher_derivatives `{SciPy} `{NumDiffTools} (func : loglike)
    (pos0 : list float) (dpos : option hints) (ml_first : bool)
    (ml_method : string) (ml_options : option options_t) :
  let r := run_fisher func pos0 dpos ml_first ml_method ml_options in
  fisher_v r = np_neg (Gradient (mfunc func) (params_cent r)) ∧
  fisher_m r = Hessian (mfunc func) (params_cent r) ∧
  (Gradient (mfunc func) (params_cent r) = np_neg (Gradient func (params_cent r)) →
   fisher_v r = Gradient func (params_cent r)).
Proof.
  unfold run_fisher. destruct ml_first; simpl; repeat split;
    intros ->; apply np_neg_involutive.
Qed.

Lemma run_fisher_derivatives_witness :
  let r := run_fisher bowl [F64.one; F64.c_0_1] None false "Powell" None in
  Gradient (mfunc bowl) (params_cent r) =
    np_neg (Gradient bowl (params_cent r)) ∧
  fisher_v r = Gradient bowl (params_cent r).
Proof.
  intros r.
  assert (Gradient (mfunc bowl) (params_cent r) =
          np_neg (Gradient bowl (params_cent r))) as Hodd
    by (vm_compute; reflexivity).
  split; [exact Hodd|].
  exact (proj2 (proj2 (run_fisher_derivatives bowl [F64.one; F64.c_0_1]
                         None false "Powell" None)) Hodd).
Defined.

(** ** The convergence test *)

Lemma forallb_id_fmap {A} (f : A → bool) (l : list A) :
  forallb id (f <$> l) = true ↔ ∀ i t, l !! i = Some t → f t = true.
Proof.
  induction l as [|a l IH]; simpl.
  - split; [intros _ i t Hi; by rewrite lookup_nil in Hi | done].
  - unfold id at 1. rewrite andb_true_iff, IH. split.
    + intros [Ha Hl] [|i] t Hi; simpl in Hi; [by injection Hi as <- | eauto].
    + intros Hall. split; [apply (Hall 0); done | intros i t Hi; apply (Hall (S i)); done].
Qed.

(** The relative changes the test computes, dimension by dimension. *)
Lemma relative_changes old_tau tau :
  baseline_for old_tau tau →
  ∃ ch, (np_sub old_tau (Vector tau) ≫= λ d, np_div (np_abs d) (Vector tau))
          = Ok (Vector ch) ∧
        length ch = length tau ∧
        ∀ i, ch !! i =
             (t ← tau !! i; o ← nd_item old_tau i; Some (relative_change o t)).
Proof.
  intros Hbase. destruct old_tau as [o|l]; simpl in *.
  - rewrite decide_True by (by rewrite !length_fmap).
    eexists. split; [done|]. split.
    + by rewrite length_zip_with, !length_fmap, Nat.min_id.
    + intros i. rewrite lookup_zip_with, !list_lookup_fmap.
      by destruct (tau !! i).
  - rewrite decide_True by done. simpl.
    rewrite decide_True by (by rewrite length_fmap, length_zip_with, Hbase, Nat.min_id).
    eexists. split; [done|]. split.
    + by rewrite length_zip_with, !length_fmap, length_zip_with, Hbase, !Nat.min_id.
    + intros i. rewrite lookup_zip_with, !list_lookup_fmap, lookup_zip_with.
      destruct (tau !! i) as [t|] eqn:Ht; simpl.
      * by destruct (l !! i).
      * by destruct (l !! i).
Qed.

(** The test never fails on a well-shaped baseline, and it answers yes
    exactly when the criterion holds. *)
Lemma converged_criterion conv_F conv_perc old_tau tau it :
  baseline_for old_tau tau →
  ∃ c, converged conv_F conv_perc old_tau (Vector tau) it = Ok c ∧
       (c = true ↔ criterion conv_F conv_perc old_tau tau it).
Proof.
  intros Hbase. unfold converged. simpl.
  destruct (relative_changes old_tau tau Hbase) as (ch & Hch & Hlen & Hlook).
  destruct (np_sub old_tau (Vector tau)) as [d|e]; simpl in *; [|discriminate].
  rewrite Hch. simpl. eexists. split; [done|].
  rewrite andb_true_iff, <- list_fmap_compose, !forallb_id_fmap.
  unfold criterion, compose. apply and_iff_compat_l.
  split.
  - intros Hall i t Ht. specialize (Hlook i). rewrite Ht in Hlook. simpl in Hlook.
    destruct (nd_item old_tau i) as [o|] eqn:Ho; simpl in Hlook.
    + exists o. split; [done|]. by apply (Hall i).
    + apply lookup_lt_Some in Ht. apply lookup_ge_None in Hlook. lia.
  - intros Hall i c Hc.
    specialize (Hlook i). rewrite Hc in Hlook.
    destruct (tau !! i) as [t|] eqn:Ht; simpl in Hlook; [|discriminate].
    destruct (Hall i t Ht) as (o & Ho & Hlt). rewrite Ho in Hlook.
    simpl in Hlook. by injection Hlook as ->.
Qed.

(** ** The sampling loop *)

(** One turn of the loop at an iteration where no check is due. *)
Lemma sampling_loop_skip `{NumPy} `{Emcee} conv_F conv_perc budget s old_tau ac :
  ¬ check_due (iteration (sample_next s)) →
  sampling_loop conv_F conv_perc (S budget) s old_tau ac =
    sampling_loop conv_F conv_perc budget (sample_next s) old_tau ac.
Proof.
  intros Hdue. cbn [sampling_loop].
  destruct (Nat.eqb_spec (iteration (sample_next s) `mod` 100) 0) as [Heq|Hne];
    [by destruct Hdue | done].
Qed.

(** One turn of the loop at an iteration where a check is due. *)
Lemma sampling_loop_check `{NumPy} `{Emcee} conv_F conv_perc budget s old_tau ac :
  check_due (iteration (sample_next s)) →
  sampling_loop conv_F conv_perc (S budget) s old_tau ac =
    let s' := sample_next s in
    let tau := get_autocorr_time s' in
    let ac' := ac ++ [(iteration s', np_mean tau)] in
    c ← converged conv_F conv_perc old_tau (Vector tau) (iteration s');
    if c : bool then Ok (s', ac')
    else sampling_loop conv_F conv_perc budget s' (Vector tau) ac'.
Proof.
  intros Hdue. cbn [sampling_loop].
  destruct (Nat.eqb_spec (iteration (sample_next s) `mod` 100) 0) as [Heq|Hne];
    [done | by destruct Hne].
Qed.

Lemma iteration_iter `{E : Emcee} `{!EmceeOk E} m s :
  iteration (Nat.iter m sample_next s) = iteration s + m.
Proof.
  induction m as [|m IH]; simpl; [lia|]. rewrite next_iteration, IH. lia.
Qed.


(** What the loop leaves behind: the sampler has kept its dimensions,
    has advanced by at most the budget, has stopped short of it only at
    a check, and the trace lists the iterations at which a check was
    due, all of them, in order. *)
Lemma sampling_loop_final `{N : NumPy} `{E : Emcee} `{!EmceeOk E}
    conv_F conv_perc budget : ∀ s0 old_tau ac0 s ac,
  sampling_loop conv_F conv_perc budget s0 old_tau ac0 = Ok (s, ac) →
  nwalkers_of s = nwalkers_of s0 ∧ ndim_of s = ndim_of s0 ∧
  iteration s0 ≤ iteration s ≤ iteration s0 + budget ∧
  (iteration s < iteration s0 + budget → check_due (iteration s)) ∧
  (0 < budget → iteration s0 < iteration s) ∧
  ac.*1 = ac0.*1 ++
          filter check_due (seq (S (iteration s0)) (iteration s - iteration s0)).
Proof.
  induction budget as [|budget IH]; intros s0 old_tau ac0 s ac Hrun.
  - simpl in Hrun. injection Hrun as <- <-.
    rewrite Nat.sub_diag. simpl. rewrite app_nil_r.
    repeat split; lia.
  - pose proof (next_iteration s0) as Hit.
    pose proof (next_nwalkers s0) as HW. pose proof (next_ndim s0) as HD.
    destruct (decide (check_due (iteration (sample_next s0)))) as [Hdue|Hdue].
    + rewrite sampling_loop_check in Hrun by done. simpl in Hrun.
      apply bind_Ok in Hrun as ([] & _ & Hrun).
      * injection Hrun as <- <-. rewrite Hit, HW, HD.
        replace (S (iteration s0) - iteration s0) with 1 by lia. simpl.
        rewrite filter_cons_True by (by rewrite <- Hit).
        rewrite fmap_app. simpl. rewrite <- Hit.
        repeat split; try done; lia.
      * apply IH in Hrun as (-> & -> & Hle & Hstop & _ & Htr).
        rewrite Hit in *. rewrite Htr, fmap_app, <- (assoc_L (++)). simpl.
        replace (iteration s - iteration s0)
          with (S (iteration s - S (iteration s0))) by lia.
        simpl. rewrite filter_cons_True by done.
        repeat split; try done; try lia. intros ?. apply Hstop. lia.
    + rewrite sampling_loop_skip in Hrun by done.
      apply IH in Hrun as (-> & -> & Hle & Hstop & _ & Htr).
      rewrite Hit in *. rewrite Htr.
      replace (iteration s - iteration s0)
        with (S (iteration s - S (iteration s0))) by lia.
      simpl. rewrite filter_cons_False by done.
      repeat split; try done; try lia. intros ?. apply Hstop. lia.
Qed.

(** The loop raises nothing when it starts from the scalar baseline or
    from a baseline with one entry per dimension. *)
Lemma sampling_loop_total `{N : NumPy} `{E : Emcee} `{!EmceeOk E}
    conv_F conv_perc budget : ∀ s0 old_tau ac0,
  match old_tau with Scalar _ => True | Vector l => length l = ndim_of s0 end →
  ∃ s ac, sampling_loop conv_F conv_perc budget s0 old_tau ac0 = Ok (s, ac).
Proof.
  induction budget as [|budget IH]; intros s0 old_tau ac0 Hbase; [by eexists _, _|].
  destruct (decide (check_due (iteration (sample_next s0)))) as [Hdue|Hdue].
  - rewrite sampling_loop_check by done. simpl.
    destruct (converged_criterion conv_F conv_perc old_tau
                (get_autocorr_time (sample_next s0))
                (iteration (sample_next s0))) as ([] & -> & _); simpl.
    + destruct old_tau; [done|]. simpl.
      by rewrite autocorr_time_length, next_ndim.
    + by eexists _, _.
    + apply IH. by rewrite autocorr_time_length.
  - rewrite sampling_loop_skip by done. apply IH.
    destruct old_tau; [done|]. by rewrite next_ndim.
Qed.

(** ** The run up to the end of the loop *)

Lemma initial_positions_total `{N : NumPy} `{!NumPyOk N} nwalkers pos0 dp :
  length dp = length pos0 → ∀ g,
  ∃ pos g', initial_positions nwalkers (length pos0) pos0 dp g = Ok (pos, g').
Proof.
  intros Hdp. induction nwalkers as [|n IH]; intros g; simpl; [by eexists _, _|].
  pose proof (randn_length (length pos0) g) as Hz.
  destruct (randn (length pos0) g) as [z g1]. simpl in *.
  rewrite decide_True by congruence. simpl.
  rewrite decide_True by (rewrite length_zip_with; lia). simpl.
  destruct (IH g1) as (pos & g' & ->). simpl. by eexists _, _.
Qed.

(** The loop of a run starts from a fresh sampler with the scalar
    infinity as baseline and an empty trace. *)
Lemma emcee_sampling_loop `{N : NumPy} `{E : Emcee} func pos0 dpos nwalkers
    nsamps conv_F conv_perc kw g s ac :
  emcee_sampling func pos0 dpos nwalkers nsamps conv_F conv_perc kw g = Ok (s, ac) →
  ∃ pos,
    sampling_loop conv_F conv_perc nsamps
      (sample_begin (EnsembleSampler nwalkers (length pos0) func kw) pos)
      (Scalar F64.inf) [] = Ok (s, ac).
Proof.
  unfold emcee_sampling. intros Hrun.
  apply bind_Ok in Hrun as (dp & _ & Hrun).
  apply bind_Ok in Hrun as ([pos g'] & _ & Hrun). eauto.
Qed.

(** With hints no longer than the parameter vector (or no hints) the run
    reaches the end of the loop without raising. *)
Lemma emcee_sampling_total `{N : NumPy} `{!NumPyOk N} `{E : Emcee} `{!EmceeOk E}
    func pos0 dpos nwalkers nsamps conv_F conv_perc kw g :
  match dpos with None => True | Some l => length l ≤ length pos0 end →
  ∃ s ac,
    emcee_sampling func pos0 dpos nwalkers nsamps conv_F conv_perc kw g = Ok (s, ac).
Proof.
  intros Hlen. unfold emcee_sampling.
  assert (∃ dp, initial_dp (length pos0) dpos = Ok dp) as [dp Hdp].
  { destruct dpos as [l|]; [rewrite initial_dp_hints by done | rewrite initial_dp_absent];
      eauto. }
  rewrite Hdp. simpl.
  destruct (initial_positions_total nwalkers pos0 dp
              (initial_dp_length _ _ _ Hdp) g) as (pos & g' & ->). simpl.
  by apply sampling_loop_total.
Qed.

Lemma emcee_sampling_final `{N : NumPy} `{E : Emcee} `{!EmceeOk E} func pos0 dpos
    nwalkers nsamps conv_F conv_perc kw g s ac :
  emcee_sampling func pos0 dpos nwalkers nsamps conv_F conv_perc kw g = Ok (s, ac) →
  nwalkers_of s = nwalkers ∧ ndim_of s = length pos0 ∧
  iteration s ≤ nsamps ∧
  (iteration s < nsamps → check_due (iteration s)) ∧
  ac.*1 = filter check_due (seq 1 (iteration s)).
Proof.
  intros Hrun. apply emcee_sampling_loop in Hrun as [pos Hrun].
  apply sampling_loop_final in Hrun as (HW & HD & Hle & Hstop & _ & Htr).
  rewrite begin_nwalkers, new_nwalkers in HW.
  rewrite begin_ndim, new_ndim in HD.
  rewrite begin_iteration, new_iteration in *.
  rewrite Nat.sub_0_r in Htr. simpl in *.
  repeat split; [done | done | lia | done | done].
Qed.


(** ** The stand-ins keep the documented contracts *)

#[global] Instance standin_numpy_ok : NumPyOk numpy.
Proof. split. intros n g. simpl. apply length_replicate. Qed.

#[global] Instance standin_emcee_ok : EmceeOk emcee.
Proof.
  split; try done.
  - intros s. simpl. apply length_replicate.
  - intros s. unfold has_shape. simpl. split.
    + by rewrite length_fmap, length_resize.
    + apply Forall_fmap, Forall_forall. intros p _. simpl. split.
      * apply length_replicate.
      * apply Forall_replicate. apply length_resize.
Qed.


(** ** The sample pool *)

Lemma rows_concat {A} n (rs : list (list A)) :
  Forall (λ r, length r = n) rs → rows (length rs) n (concat rs) = rs.
Proof.
  induction 1 as [|r rs Hr _ IH]; simpl; [done|].
  rewrite take_app_length', drop_app_length' by done. by rewrite IH.
Qed.

Lemma length_concat_uniform {A} n (rs : list (list A)) :
  Forall (λ r, length r = n) rs → length (concat rs) = length rs * n.
Proof.
  induction 1 as [|r rs Hr _ IH]; simpl; [done|].
  rewrite length_app, IH, Hr. lia.
Qed.

Lemma reshape_rows_concat {A} n (rs : list (list A)) :
  n ≠ 0 → Forall (λ r, length r = n) rs → reshape_rows n (concat rs) = Ok rs.
Proof.
  intros Hn Hrs. unfold reshape_rows.
  rewrite decide_False by done.
  rewrite (length_concat_uniform n) by done.
  rewrite decide_True by (by apply Nat.Div0.mod_mul).
  by rewrite Nat.div_mul, rows_concat.
Qed.

(** On a chain of shape (nwalkers, k, ndim) the slice and the reshape
    give the retained positions of the walkers one after the other. *)
Lemma burned_pool_shape nburn ndim chain nwalkers k :
  ndim ≠ 0 → has_shape chain nwalkers k ndim →
  burned_pool nburn ndim chain = Ok (concat (drop nburn <$> chain)) ∧
  length (concat (drop nburn <$> chain)) = nwalkers * (k - nburn) ∧
  Forall (λ row, length row = ndim) (concat (drop nburn <$> chain)).
Proof.
  intros Hn [HW Hshape].
  assert (Forall (λ row, length row = ndim) (concat (drop nburn <$> chain))) as Hrows.
  { apply Forall_concat, Forall_fmap. eapply Forall_impl; [exact Hshape|].
    intros w [_ Hw]. by apply Forall_drop. }
  split; [by apply reshape_rows_concat|]. split; [|done].
  rewrite (length_concat_uniform (k - nburn)).
  - by rewrite length_fmap, HW.
  - apply Forall_fmap. eapply Forall_impl; [exact Hshape|].
    intros w [Hw _]. simpl. by rewrite length_drop, Hw.
Qed.

(** C4. When a run has executed [k] iterations and [k > nburn], the
    returned pool is the history of every walker without its first
    [nburn] iterations, the walkers one after the other, a table of
    [nwalkers * (k - nburn)] rows of [ndim] entries. *)
Theorem burn_in_discarded `{N : NumPy} `{E : Emcee} `{!EmceeOk E}
    (func : loglike) (pos0 : list float) (dpos : option hints)
    (nwalkers nsamps nburn : nat) (conv_F conv_perc : float) (kw : kwargs)
    (g : rng) (s : sampler) (ac : trace) :
  pos0 ≠ [] →
  emcee_sampling func pos0 dpos nwalkers nsamps conv_F conv_perc kw g = Ok (s, ac) →
  nburn < iteration s →
  run_emcee func pos0 dpos nwalkers nsamps nburn conv_F conv_perc kw g =
    Ok {| chains := concat (drop nburn <$> chain s); autocorr := ac |} ∧
  length (concat (drop nburn <$> chain s)) = nwalkers * (iteration s - nburn) ∧
  Forall (λ row, length row = length pos0) (concat (drop nburn <$> chain s)).
Proof.
  intros Hpos Hrun _. unfold run_emcee. rewrite Hrun. simpl.
  pose proof (emcee_sampling_final _ _ _ _ _ _ _ _ _ _ _ Hrun) as (HW & HD & _).
  pose proof (chain_shape s) as Hshape. rewrite HW, HD in Hshape.
  destruct (burned_pool_shape nburn (length pos0) (chain s) nwalkers (iteration s))
    as (-> & Hlen & Hrows); [by destruct pos0 | done | done].
Qed.

Lemma burn_in_discarded_witness :
  ∃ s ac,
    [F64.one; F64.zero] ≠ [] ∧
    emcee_sampling bowl [F64.one; F64.zero] None 4 30 fifty F64.c_1e_2
                   (tau_is F64.one) (seed 0) = Ok (s, ac) ∧
    10 < iteration s ∧
    run_emcee bowl [F64.one; F64.zero] None 4 30 10 fifty F64.c_1e_2
              (tau_is F64.one) (seed 0) =
      Ok {| chains := concat (drop 10 <$> chain s); autocorr := ac |} ∧
    length (concat (drop 10 <$> chain s)) = 4 * (iteration s - 10).
Proof.
  destruct (emcee_sampling bowl [F64.one; F64.zero] None 4 30 fifty F64.c_1e_2
              (tau_is F64.one) (seed 0)) as [[s ac]|e] eqn:Hrun;
    [|vm_compute in Hrun; discriminate].
  assert (iteration s = 30) as Hit
    by (vm_compute in Hrun; injection Hrun as <- <-; reflexivity).
  exists s, ac. split; [discriminate|]. split; [reflexivity|].
  split; [rewrite Hit; lia|].
  destruct (burn_in_discarded bowl [F64.one; F64.zero] None 4 30 10 fifty
              F64.c_1e_2 (tau_is F64.one) (seed 0) s ac) as (Hres & Hlen & _);
    [discriminate | exact Hrun | rewrite Hit; lia |].
  split; [exact Hres | exact Hlen].
Defined.

(** C10. When a run has executed [k] iterations and [k <= nburn],
    [run_emcee] raises nothing: the slice is empty and so is the pool
    it returns (zero rows, that is [nwalkers * max (k - nburn) 0]). *)
Theorem short_run_empty_pool `{N : NumPy} `{E : Emcee} `{!EmceeOk E}
    (func : loglike) (pos0 : list float) (dpos : option hints)
    (nwalkers nsamps nburn : nat) (conv_F conv_perc : float) (kw : kwargs)
    (g : rng) (s : sampler) (ac : trace) :
  pos0 ≠ [] →
  emcee_sampling func pos0 dpos nwalkers nsamps conv_F conv_perc kw g = Ok (s, ac) →
  iteration s ≤ nburn →
  run_emcee func pos0 dpos nwalkers nsamps nburn conv_F conv_perc kw g =
    Ok {| chains := []; autocorr := ac |} ∧
  length ([] : list (list float)) = nwalkers * Nat.max (iteration s - nburn) 0.
Proof.
  intros Hpos Hrun Hk. unfold run_emcee. rewrite Hrun. simpl.
  pose proof (emcee_sampling_final _ _ _ _ _ _ _ _ _ _ _ Hrun) as (HW & HD & _).
  pose proof (chain_shape s) as Hshape. rewrite HW, HD in Hshape.
  destruct (burned_pool_shape nburn (length pos0) (chain s) nwalkers (iteration s))
    as (-> & Hlen & _); [by destruct pos0 | done |].
  replace (iteration s - nburn) with 0 in * by lia.
  rewrite Nat.mul_0_r in *. apply nil_length_inv in Hlen. rewrite Hlen.
  simpl. split; [done | lia].
Qed.

Lemma short_run_empty_pool_witness :
  ∃ s ac,
    [F64.one; F64.zero] ≠ [] ∧
    emcee_sampling bowl [F64.one; F64.zero] None 4 30 fifty F64.c_1e_2
                   (tau_is F64.one) (seed 0) = Ok (s, ac) ∧
    iteration s ≤ 50 ∧
    run_emcee bowl [F64.one; F64.zero] None 4 30 50 fifty F64.c_1e_2
              (tau_is F64.one) (seed 0) = Ok {| chains := []; autocorr := ac |}.
Proof.
  destruct (emcee_sampling bowl [F64.one; F64.zero] None 4 30 fifty F64.c_1e_2
              (tau_is F64.one) (seed 0)) as [[s ac]|e] eqn:Hrun;
    [|vm_compute in Hrun; discriminate].
  assert (iteration s = 30) as Hit
    by (vm_compute in Hrun; injection Hrun as <- <-; reflexivity).
  exists s, ac. split; [discriminate|]. split; [reflexivity|].
  split; [rewrite Hit; lia|].
  apply (short_run_empty_pool bowl [F64.one; F64.zero] None 4 30 50 fifty
           F64.c_1e_2 (tau_is F64.one) (seed 0) s ac);
    [discriminate | exact Hrun | rewrite Hit; lia].
Defined.

(** ** Convergence and early stopping *)



(** ** The first check *)


Lemma no_check_within_a_hundred base j :
  check_due base → 1 ≤ j ≤ 99 → ¬ check_due (base + j).
Proof.
  unfold check_due. intros Hbase Hj Hdue.
  apply Nat.Lcm0.mod_divide in Hbase as [q ->].
  rewrite Nat.add_comm, Nat.Div0.mod_add, Nat.mod_small in Hdue; lia.
Qed.





(** * Further properties of the harness *)

(** ** The amplitudes are never negative *)

Lemma binary_round_aux_sign sx mx ex lx :
  match binary_round_aux F64.prec F64.emax sx mx ex lx with
  | S754_zero s | S754_infinity s | S754_finite s _ _ => s = sx
  | S754_nan => True
  end.
Proof.
  unfold binary_round_aux.
  destruct (shr_fexp _ _ mx ex lx) as [mrs' e'].
  destruct (shr_fexp _ _ _ e' loc_Exact) as [mrs'' e''].
  destruct (shr_m mrs'') as [|m|m]; [done | | done].
  by destruct (Z.leb e'' _).
Qed.

Lemma displacement_not_below_zero d : not_below_zero (displacement d).
Proof.
  destruct d as [h|]; [|done]. simpl.
  destruct (F64.leb h F64.zero) eqn:Hle; [done|].
  destruct h as [s|[]| |[] m e]; try done.
  unfold F64.mul, F64.c_0_1, SFmul. simpl xorb.
  pose proof (binary_round_aux_sign false
                (Z.pos (m * 7205759403792794)) (e + -56) loc_Exact) as Hs.
  by destruct (binary_round_aux _ _ _ _ _ _) as [?|?| |? ? ?]; simplify_eq.
Qed.

(** Whatever the hints, no entry of [dp] is negative: each is +0, a
    positive number, plus infinity or NaN, so the walkers are never
    spread with a negative amplitude. *)
Theorem initial_dp_not_below_zero (ndim : nat) (dpos : option hints)
    (dp : list float) :
  initial_dp ndim dpos = Ok dp → Forall not_below_zero dp.
Proof.
  destruct dpos as [l|].
  - destruct (decide (length l ≤ ndim)) as [Hle|Hgt].
    + rewrite initial_dp_hints by done. intros [= <-].
      apply Forall_app. split.
      * apply Forall_fmap, Forall_forall. intros d _. apply displacement_not_below_zero.
      * by apply Forall_replicate.
    + unfold initial_dp.
      rewrite fill_dp_beyond by (rewrite ?length_replicate; lia). discriminate.
  - rewrite initial_dp_absent. intros [= <-]. by apply Forall_replicate.
Qed.

Lemma initial_dp_not_below_zero_witness :
  ∃ dp,
    initial_dp 3 (Some [Some (F64.opp F64.one); Some F64.inf]) = Ok dp ∧
    Forall not_below_zero dp.
Proof.
  destruct (initial_dp 3 (Some [Some (F64.opp F64.one); Some F64.inf]))
    as [dp|e] eqn:Hdp; [|vm_compute in Hdp; discriminate].
  exists dp. split; [reflexivity|].
  exact (initial_dp_not_below_zero 3 _ dp Hdp).
Defined.

(** ** The starting ensemble *)

(** The list comprehension calls [randn(ndim)] once per walker, one call
    after the other on the global generator: walker [i] starts at [pos0 +
    dp * z_i] (entry by entry) for the i-th draw [z_i], there are
    [nwalkers] positions of [ndim] entries each, and the generator is left
    in the state after the last draw. *)
Theorem initial_positions_draws `{N : NumPy} `{!NumPyOk N} (nwalkers : nat)
    (pos0 dp : list float) :
  length dp = length pos0 → ∀ g pos g',
  initial_positions nwalkers (length pos0) pos0 dp g = Ok (pos, g') →
  pos = (λ z, Vector (zip_with F64.add pos0 (zip_with F64.mul dp z)))
          <$> (randn_draws nwalkers (length pos0) g).1 ∧
  g' = (randn_draws nwalkers (length pos0) g).2 ∧
  length pos = nwalkers ∧
  Forall (λ p, ∃ l, p = Vector l ∧ length l = length pos0) pos.
Proof.
  intros Hdp. induction nwalkers as [|n IH]; intros g pos g' Hrun; simpl in Hrun.
  - by injection Hrun as <- <-.
  - pose proof (randn_length (length pos0) g) as Hz. simpl.
    destruct (randn (length pos0) g) as [z g1]. simpl in *.
    rewrite decide_True in Hrun by congruence. simpl in Hrun.
    rewrite decide_True in Hrun by (rewrite length_zip_with; lia). simpl in Hrun.
    apply bind_Ok in Hrun as ([ps g2] & Hps & [= <- <-]).
    apply IH in Hps as (Hpos & Hg & Hlen & Hall).
    destruct (randn_draws n (length pos0) g1) as [zs g3]. simpl in *.
    subst ps g2. split; [done|]. split; [done|].
    split; [by rewrite length_fmap in *; f_equal|].
    apply Forall_cons. split; [|done].
    eexists. split; [done|]. rewrite !length_zip_with. lia.
Qed.

Lemma initial_positions_draws_witness :
  ∃ pos g',
    length [F64.c_0_1; F64.zero] = length [F64.one; F64.zero] ∧
    initial_positions 3 (length [F64.one; F64.zero]) [F64.one; F64.zero]
                      [F64.c_0_1; F64.zero] (seed 0) = Ok (pos, g') ∧
    length pos = 3 ∧ g' = seed 3.
Proof.
  destruct (initial_positions 3 (length [F64.one; F64.zero]) [F64.one; F64.zero]
              [F64.c_0_1; F64.zero] (seed 0)) as [[pos g']|e] eqn:Hrun;
    [|vm_compute in Hrun; discriminate].
  exists pos, g'. split; [reflexivity|]. split; [reflexivity|].
  destruct (initial_positions_draws 3 [F64.one; F64.zero] [F64.c_0_1; F64.zero]
              eq_refl (seed 0) pos g' Hrun) as (_ & Hg & Hlen & _).
  split; [exact Hlen | exact Hg].
Defined.

(** ** The size of the pool *)

(** Whatever the course of the run, the pool has [nwalkers * (k - nburn)]
    rows for some [k <= nsamps], hence at most [nwalkers * (nsamps -
    nburn)], and every row has [ndim] entries. *)
Theorem pool_size_bounded `{N : NumPy} `{E : Emcee} `{!EmceeOk E}
    (func : loglike) (pos0 : list float) (dpos : option hints)
    (nwalkers nsamps nburn : nat) (conv_F conv_perc : float) (kw : kwargs)
    (g : rng) (r : EmceeResult) :
  pos0 ≠ [] →
  run_emcee func pos0 dpos nwalkers nsamps nburn conv_F conv_perc kw g = Ok r →
  (∃ k, k ≤ nsamps ∧ length (chains r) = nwalkers * (k - nburn)) ∧
  length (chains r) ≤ nwalkers * (nsamps - nburn) ∧
  Forall (λ row, length row = length pos0) (chains r).
Proof.
  intros Hpos Hrun. unfold run_emcee in Hrun.
  apply bind_Ok in Hrun as ([s ac] & Hs & Hrun).
  pose proof (emcee_sampling_final _ _ _ _ _ _ _ _ _ _ _ Hs) as (HW & HD & Hle & _).
  pose proof (chain_shape s) as Hshape. rewrite HW, HD in Hshape.
  destruct (burned_pool_shape nburn (length pos0) (chain s) nwalkers (iteration s))
    as (Hpool & Hlen & Hrows); [by destruct pos0 | done |].
  rewrite Hpool in Hrun. simpl in Hrun. injection Hrun as <-. simpl.
  split; [by exists (iteration s)|]. split; [|done].
  rewrite Hlen. apply Nat.mul_le_mono_l. lia.
Qed.

Lemma pool_size_bounded_witness :
  ∃ r,
    [F64.one; F64.zero] ≠ [] ∧
    run_emcee bowl [F64.one; F64.zero] None 4 250 50 fifty F64.c_1e_2
              (tau_is F64.one) (seed 0) = Ok r ∧
    length (chains r) ≤ 4 * (250 - 50).
Proof.
  destruct (run_emcee bowl [F64.one; F64.zero] None 4 250 50 fifty F64.c_1e_2
              (tau_is F64.one) (seed 0)) as [r|e] eqn:Hrun;
    [|vm_compute in Hrun; discriminate].
  exists r. split; [discriminate|]. split; [reflexivity|].
  destruct (pool_size_bounded bowl [F64.one; F64.zero] None 4 250 50 fifty
              F64.c_1e_2 (tau_is F64.one) (seed 0) r) as (_ & Hle & _);
    [discriminate | exact Hrun | exact Hle].
Defined.

(** ** The trace and the reason for stopping *)

Lemma checks_up_to k :
  filter check_due (seq 1 k) = (λ j, 100 * j) <$> seq 1 (k `div` 100).
Proof.
  induction k as [|k IH]; [done|].
  rewrite seq_S, filter_app, IH. change (1 + k) with (S k).
  destruct (decide (check_due (S k))) as [Hdue|Hdue].
  - rewrite (filter_cons_True _ _ _ Hdue). unfold check_due in Hdue.
    apply Nat.Lcm0.mod_divide in Hdue as [q Hq].
    assert (k `div` 100 = q - 1) as ->
      by (symmetry; apply (Nat.div_unique _ _ _ 99); lia).
    assert (S k `div` 100 = S (q - 1)) as ->
      by (symmetry; apply (Nat.div_unique _ _ _ 0); lia).
    rewrite seq_S, fmap_app. simpl. do 3 f_equal. lia.
  - rewrite (filter_cons_False _ _ _ Hdue), app_nil_r. unfold check_due in Hdue.
    f_equal. f_equal.
    apply (Nat.div_unique _ _ _ (S (k `mod` 100))).
    + pose proof (Nat.mod_upper_bound k 100).
      pose proof (Nat.div_mod_eq k 100).
      destruct (decide (S (k `mod` 100) = 100)) as [Heq|]; [|lia].
      destruct Hdue. apply Nat.Lcm0.mod_divide. exists (S (k `div` 100)). lia.
    + pose proof (Nat.div_mod_eq k 100). lia.
Qed.

(** A loop that ends with budget to spare has just seen the test say
    yes against the baseline then in force; the entry of that check is
    the last of the trace. *)
Lemma sampling_loop_stop_reason `{N : NumPy} `{E : Emcee} `{!EmceeOk E}
    conv_F conv_perc budget : ∀ s0 old_tau ac0 s ac,
  sampling_loop conv_F conv_perc budget s0 old_tau ac0 = Ok (s, ac) →
  iteration s < iteration s0 + budget →
  ∃ m ac',
    s = Nat.iter (S m) sample_next s0 ∧
    converged conv_F conv_perc (baseline_after m s0 old_tau)
              (Vector (get_autocorr_time s)) (iteration s) = Ok true ∧
    ac = ac' ++ [(iteration s, np_mean (get_autocorr_time s))].
Proof.
  induction budget as [|budget IH]; intros s0 old_tau ac0 s ac Hrun Hlt.
  - simpl in Hrun. injection Hrun as <- <-. lia.
  - pose proof (next_iteration s0) as Hit.
    destruct (decide (check_due (iteration (sample_next s0)))) as [Hdue|Hdue].
    + rewrite sampling_loop_check in Hrun by done. cbv zeta in Hrun.
      apply bind_Ok in Hrun as ([] & Hc & Hrun).
      * injection Hrun as <- <-. by exists 0, ac0.
      * apply IH in Hrun as (m & ac' & -> & Hconv & ->); [|lia].
        exists (S m), ac'. split; [by rewrite <- Nat.iter_succ_r|].
        split; [|done]. cbn [baseline_after]. by rewrite decide_True.
    + rewrite sampling_loop_skip in Hrun by done.
      apply IH in Hrun as (m & ac' & -> & Hconv & ->); [|lia].
      exists (S m), ac'. split; [by rewrite <- Nat.iter_succ_r|].
      split; [|done]. cbn [baseline_after]. by rewrite decide_False.
Qed.

Lemma baseline_after_skip `{E : Emcee} `{!EmceeOk E} m : ∀ s old_tau,
  (∀ j, 1 ≤ j ≤ m → ¬ check_due (iteration s + j)) →
  baseline_after m s old_tau = old_tau.
Proof.
  induction m as [|m IH]; intros s old_tau Hno; [done|].
  cbn [baseline_after]. rewrite decide_False.
  - apply IH. intros j Hj. rewrite next_iteration.
    replace (S (iteration s) + j) with (iteration s + S j) by lia. apply Hno. lia.
  - rewrite next_iteration.
    replace (S (iteration s)) with (iteration s + 1) by lia. apply Hno. lia.
Qed.

Lemma baseline_after_add `{E : Emcee} m n : ∀ s old_tau,
  baseline_after (m + n) s old_tau =
    baseline_after n (Nat.iter m sample_next s) (baseline_after m s old_tau).
Proof.
  induction m as [|m IH]; intros s old_tau; [done|].
  rewrite Nat.iter_succ_r. cbn [Nat.add baseline_after]. apply IH.
Qed.

(** In a run from a fresh sampler the baseline of the check at iteration
    100 is the initial one, and the baseline of a later check is the
    vector of estimates made 100 iterations before. *)
Lemma baseline_at_check `{E : Emcee} `{!EmceeOk E} s0 old_tau q :
  iteration s0 = 0 →
  baseline_after (100 * q + 99) s0 old_tau =
    if decide (q = 0) then old_tau
    else Vector (get_autocorr_time (Nat.iter (100 * q) sample_next s0)).
Proof.
  intros Hfresh. destruct q as [|q].
  - rewrite decide_True by done. apply baseline_after_skip.
    intros j Hj. rewrite Hfresh. by apply (no_check_within_a_hundred 0).
  - rewrite decide_False by done.
    replace (100 * S q + 99) with ((100 * q + 99) + (1 + 99)) by lia.
    rewrite baseline_after_add, (baseline_after_add 1 99).
    assert (iteration (Nat.iter 1 sample_next (Nat.iter (100 * q + 99) sample_next s0))
            = 100 * S q) as Hit by (rewrite !iteration_iter, Hfresh; lia).
    assert (check_due (100 * S q)) as Hdue.
    { unfold check_due. apply Nat.Lcm0.mod_divide. exists (S q). lia. }
    rewrite baseline_after_skip
      by (intros j Hj; rewrite Hit; by apply no_check_within_a_hundred).
    cbn [baseline_after]. cbn [Nat.iter nat_rect] in Hit.
    rewrite decide_True by (by rewrite Hit).
    change (sample_next (Nat.iter (100 * q + 99) sample_next s0))
      with (Nat.iter (S (100 * q + 99)) sample_next s0).
    by replace (S (100 * q + 99)) with (100 * S q) by lia.
Qed.

(** The trace of a run lists the iterations 100, 200, ... up to the last
    multiple of 100 run: it has [k div 100] entries, at most [nsamps div
    100]. *)
Theorem trace_iterations `{N : NumPy} `{E : Emcee} `{!EmceeOk E}
    (func : loglike) (pos0 : list float) (dpos : option hints)
    (nwalkers nsamps : nat) (conv_F conv_perc : float) (kw : kwargs) (g : rng)
    (s : sampler) (ac : trace) :
  emcee_sampling func pos0 dpos nwalkers nsamps conv_F conv_perc kw g = Ok (s, ac) →
  ac.*1 = (λ j, 100 * j) <$> seq 1 (iteration s `div` 100) ∧
  length ac = iteration s `div` 100 ∧
  length ac ≤ nsamps `div` 100.
Proof.
  intros Hrun.
  apply emcee_sampling_final in Hrun as (_ & _ & Hle & _ & Htr).
  rewrite checks_up_to in Htr. split; [done|].
  assert (length ac = iteration s `div` 100) as Hlen.
  { rewrite <- (length_fmap fst ac), Htr, length_fmap. apply length_seq. }
  split; [done|]. rewrite Hlen. by apply Nat.Div0.div_le_mono.
Qed.

Lemma trace_iterations_witness :
  ∃ s ac,
    emcee_sampling bowl [F64.one; F64.zero] None 4 250 fifty F64.c_1e_2
                   (tau_is F64.one) (seed 0) = Ok (s, ac) ∧
    length ac = iteration s `div` 100 ∧ length ac = 2.
Proof.
  destruct (emcee_sampling bowl [F64.one; F64.zero] None 4 250 fifty F64.c_1e_2
              (tau_is F64.one) (seed 0)) as [[s ac]|e] eqn:Hrun;
    [|vm_compute in Hrun; discriminate].
  exists s, ac. split; [reflexivity|].
  pose proof (trace_iterations _ _ _ _ _ _ _ _ _ _ _ Hrun) as (_ & Hlen & _).
  split; [exact Hlen|].
  vm_compute in Hrun. injection Hrun as <- <-. reflexivity.
Defined.

(** The run up to the loop, with what it computed on the way. *)
Lemma emcee_sampling_stages `{N : NumPy} `{E : Emcee} func pos0 dpos nwalkers
    nsamps conv_F conv_perc kw g s ac :
  emcee_sampling func pos0 dpos nwalkers nsamps conv_F conv_perc kw g = Ok (s, ac) →
  ∃ dp pos g',
    initial_dp (length pos0) dpos = Ok dp ∧
    initial_positions nwalkers (length pos0) pos0 dp g = Ok (pos, g') ∧
    sampling_loop conv_F conv_perc nsamps
      (sample_begin (EnsembleSampler nwalkers (length pos0) func kw) pos)
      (Scalar F64.inf) [] = Ok (s, ac).
Proof.
  unfold emcee_sampling. intros Hrun.
  apply bind_Ok in Hrun as (dp & Hdp & Hrun).
  apply bind_Ok in Hrun as ([pos g'] & Hpos & Hrun). by exists dp, pos, g'.
Qed.

(** A run that executes fewer than [nsamps] iterations has stopped at a
    check: the iteration count [k] is a multiple of 100, at least 100,
    and the test of that check said yes. The test compared the estimates
    at iteration [k] with the baseline of the run at that point, which is
    the scalar infinity when [k = 100] and the estimates the sampler gave
    at iteration [k - 100] otherwise; the last entry of the trace is the
    entry of that check. The sampler is the one started from the ensemble
    the run drew. *)
Theorem early_stop_only_on_convergence `{N : NumPy} `{E : Emcee} `{!EmceeOk E}
    (func : loglike) (pos0 : list float) (dpos : option hints)
    (nwalkers nsamps : nat) (conv_F conv_perc : float) (kw : kwargs) (g : rng)
    (s : sampler) (ac : trace) :
  emcee_sampling func pos0 dpos nwalkers nsamps conv_F conv_perc kw g = Ok (s, ac) →
  iteration s < nsamps →
  ∃ dp pos g' ac',
    initial_dp (length pos0) dpos = Ok dp ∧
    initial_positions nwalkers (length pos0) pos0 dp g = Ok (pos, g') ∧
    let s0 := sample_begin (EnsembleSampler nwalkers (length pos0) func kw) pos in
    let k := iteration s in
    s = Nat.iter k sample_next s0 ∧
    100 ≤ k ∧ k `mod` 100 = 0 ∧
    converged conv_F conv_perc
      (if decide (k = 100) then Scalar F64.inf
       else Vector (get_autocorr_time (Nat.iter (k - 100) sample_next s0)))
      (Vector (get_autocorr_time s)) k = Ok true ∧
    ac = ac' ++ [(k, np_mean (get_autocorr_time s))].
Proof.
  intros Hrun Hlt.
  apply emcee_sampling_stages in Hrun as (dp & pos & g' & Hdp & Hpos & Hrun).
  set (s0 := sample_begin (EnsembleSampler nwalkers (length pos0) func kw) pos) in *.
  assert (iteration s0 = 0) as Hfresh
    by (unfold s0; by rewrite begin_iteration, new_iteration).
  pose proof (sampling_loop_final _ _ _ _ _ _ _ _ Hrun)
    as (_ & _ & _ & Hdue & _).
  rewrite Hfresh in Hdue. specialize (Hdue Hlt).
  destruct (sampling_loop_stop_reason _ _ _ _ _ _ _ _ Hrun)
    as (m & ac' & Hs & Hconv & Hac); [by rewrite Hfresh|].
  assert (iteration s = S m) as Hk by (by rewrite Hs, iteration_iter, Hfresh).
  unfold check_due in Hdue. apply Nat.Lcm0.mod_divide in Hdue as [q Hq].
  assert (m = 100 * (q - 1) + 99) as Hm by lia.
  exists dp, pos, g', ac'. split; [done|]. split; [done|]. cbv zeta.
  fold s0. rewrite Hk in *. split; [done|]. split; [lia|].
  split; [apply Nat.Lcm0.mod_divide; exists q; lia|]. split; [|done].
  assert (baseline_after m s0 (Scalar F64.inf) =
          if decide (q - 1 = 0) then Scalar F64.inf
          else Vector (get_autocorr_time (Nat.iter (100 * (q - 1)) sample_next s0)))
    as Hbase by (rewrite Hm; by apply baseline_at_check).
  rewrite Hbase in Hconv.
  destruct (decide (q - 1 = 0)) as [H1|H1].
  - rewrite decide_True by lia. done.
  - rewrite decide_False by lia.
    by replace (S m - 100) with (100 * (q - 1)) by lia.
Qed.

Lemma early_stop_only_on_convergence_witness :
  ∃ s ac,
    emcee_sampling bowl [F64.one; F64.zero] None 4 250 fifty F64.c_1e_2
                   (tau_is F64.one) (seed 0) = Ok (s, ac) ∧
    iteration s < 250 ∧ 100 ≤ iteration s ∧ iteration s `mod` 100 = 0.
Proof.
  destruct (emcee_sampling bowl [F64.one; F64.zero] None 4 250 fifty F64.c_1e_2
              (tau_is F64.one) (seed 0)) as [[s ac]|e] eqn:Hrun;
    [|vm_compute in Hrun; discriminate].
  assert (iteration s < 250) as Hlt
    by (vm_compute in Hrun; injection Hrun as <- <-; vm_compute; lia).
  exists s, ac. split; [reflexivity|]. split; [exact Hlt|].
  destruct (early_stop_only_on_convergence _ _ _ _ _ _ _ _ _ _ _ Hrun Hlt)
    as (dp & pos & g' & ac' & _ & _ & _ & H100 & Hmod & _).
  split; [exact H100 | exact Hmod].
Defined.

(** With a budget of at most 100 iterations the run always uses the whole
    budget, and below 100 it makes no check at all: the trace is empty. *)
Theorem small_budget_runs_in_full `{N : NumPy} `{E : Emcee} `{!EmceeOk E}
    (func : loglike) (pos0 : list float) (dpos : option hints)
    (nwalkers nsamps : nat) (conv_F conv_perc : float) (kw : kwargs) (g : rng)
    (s : sampler) (ac : trace) :
  nsamps ≤ 100 →
  emcee_sampling func pos0 dpos nwalkers nsamps conv_F conv_perc kw g = Ok (s, ac) →
  iteration s = nsamps ∧ (nsamps < 100 → ac = []).
Proof.
  intros Hsmall Hrun.
  pose proof (emcee_sampling_final _ _ _ _ _ _ _ _ _ _ _ Hrun)
    as (_ & _ & Hle & Hdue & Htr).
  apply emcee_sampling_loop in Hrun as [pos Hrun].
  apply sampling_loop_final in Hrun as (_ & _ & _ & _ & Hpos & _).
  rewrite begin_iteration, new_iteration in Hpos.
  assert (iteration s = nsamps) as Hk.
  { destruct (decide (iteration s < nsamps)) as [Hlt|]; [|lia].
    specialize (Hdue Hlt). specialize (Hpos ltac:(lia)).
    unfold check_due in Hdue. apply Nat.Lcm0.mod_divide in Hdue as [q Hq]. lia. }
  split; [done|]. intros Hlt.
  rewrite checks_up_to, Hk, Nat.div_small in Htr by done.
  by apply fmap_nil_inv in Htr.
Qed.

Lemma small_budget_runs_in_full_witness :
  ∃ s ac,
    60 ≤ 100 ∧
    emcee_sampling bowl [F64.one; F64.zero] None 4 60 fifty F64.c_1e_2
                   (tau_is minus_fifth) (seed 0) = Ok (s, ac) ∧
    iteration s = 60 ∧ ac = [].
Proof.
  destruct (emcee_sampling bowl [F64.one; F64.zero] None 4 60 fifty F64.c_1e_2
              (tau_is minus_fifth) (seed 0)) as [[s ac]|e] eqn:Hrun;
    [|vm_compute in Hrun; discriminate].
  exists s, ac. split; [lia|]. split; [reflexivity|].
  destruct (small_budget_runs_in_full bowl [F64.one; F64.zero] None 4 60 fifty
              F64.c_1e_2 (tau_is minus_fifth) (seed 0) s ac) as [Hk Hac];
    [lia | exact Hrun |].
  split; [exact Hk | apply Hac; lia].
Defined.

(** ** The driver *)



(** * HealpixInputs *)

(** ** The pixels a mask marks *)

Lemma where_one_elem mask : ∀ i j,
  j ∈ where_one i mask ↔ ∃ k, j = i + k ∧ mask !! k = Some 1%Z.
Proof.
  induction mask as [|m mask IH]; intros i j; simpl.
  - split; [by intros ?%elem_of_nil | by intros (k & _ & ?)].
  - assert (j ∈ where_one (S i) mask ↔
            ∃ k, j = i + S k ∧ mask !! k = Some 1%Z) as Htail.
    { rewrite IH. split; intros (k & -> & Hk); exists k; split; [lia | done | lia | done]. }
    destruct (decide (m = 1%Z)) as [->|Hm].
    + rewrite elem_of_cons, Htail. split.
      * intros [->|(k & -> & Hk)]; [exists 0 | exists (S k)]; split; [lia | done | done | done].
      * intros ([|k] & -> & Hk); [left; lia | right; by exists k].
    + rewrite Htail. split.
      * intros (k & -> & Hk). by exists (S k).
      * intros ([|k] & -> & Hk); [simpl in Hk; congruence | by exists k].
Qed.

Lemma where_one_sorted mask : ∀ i c c' j j',
  c < c' → where_one i mask !! c = Some j → where_one i mask !! c' = Some j' →
  j < j'.
Proof.
  induction mask as [|m mask IH]; intros i c c' j j' Hc Hj Hj'; simpl in *;
    [by rewrite lookup_nil in Hj|].
  destruct (decide (m = 1%Z)); [|by eapply IH].
  destruct c' as [|c']; [lia|]. simpl in Hj'.
  destruct c as [|c]; simpl in Hj.
  - injection Hj as <-.
    apply list_elem_of_lookup_2, where_one_elem in Hj' as (k & -> & _). lia.
  - eapply (IH (S i) c c'); [lia | done | done].
Qed.

Lemma where_one_length mask : ∀ i,
  length (where_one i mask) = length (filter (λ m, m = 1%Z) mask).
Proof.
  induction mask as [|m mask IH]; intros i; simpl; [done|].
  rewrite filter_cons. destruct (decide (m = 1%Z)); simpl; by rewrite IH.
Qed.

Lemma where_one_bound mask j : j ∈ where_one 0 mask → j < length mask.
Proof. intros (k & -> & Hk%lookup_lt_Some)%where_one_elem. lia. Qed.

Lemma first_out_of_bounds_None size idx :
  Forall (λ j, j < size) idx → first_out_of_bounds size idx = None.
Proof.
  intros Hall. unfold first_out_of_bounds.
  replace (filter (λ j, size ≤ j) idx) with (@nil nat); [done|].
  symmetry. induction Hall as [|j idx Hj _ IH]; [done|].
  rewrite filter_cons_False by lia. done.
Qed.

Lemma first_out_of_bounds_Some size idx j :
  j ∈ idx → size ≤ j →
  ∃ j', first_out_of_bounds size idx = Some j' ∧ j' ∈ idx ∧ size ≤ j'.
Proof.
  intros Hj Hle. unfold first_out_of_bounds.
  assert (j ∈ filter (λ j, size ≤ j) idx) as Hin by (by apply list_elem_of_filter).
  destruct (filter (λ j, size ≤ j) idx) as [|j' l] eqn:Hf;
    [by apply elem_of_nil in Hin|].
  exists j'. split; [done|].
  assert (j' ∈ filter (λ j, size ≤ j) idx) as Hj' by (rewrite Hf; left).
  by apply list_elem_of_filter in Hj' as [? ?].
Qed.

(** For a mask no longer than the pixel axis [extract_with_mask] raises
    nothing and keeps exactly the pixels the mask marks with a one, in
    increasing order: [partial_indices] are the marked positions,
    [partial_data] and [partial_var] have one column per marked pixel
    holding the cells of that pixel, and [data] and [variance] are left as
    they were. *)
Theorem extract_with_mask_keeps_marked_pixels (h : HealpixInputs)
    (mask : list Z) (n0 n1 n2 : nat) :
  shape3 (data h) = (n0, n1, n2) → shape3 (variance h) = (n0, n1, n2) →
  length mask ≤ n1 →
  ∃ h' idx pd pv,
    extract_with_mask h mask = (h', None) ∧
    partial_indices h' = Some idx ∧ partial_data h' = Some pd ∧
    partial_var h' = Some pv ∧
    (∀ j, j ∈ idx ↔ mask !! j = Some 1%Z) ∧
    (∀ c c' j j', c < c' → idx !! c = Some j → idx !! c' = Some j' → j < j') ∧
    length idx = length (filter (λ m, m = 1%Z) mask) ∧
    shape3 pd = (n0, length idx, n2) ∧ shape3 pv = (n0, length idx, n2) ∧
    (∀ c j p f, idx !! c = Some j →
       get3 pd p c f = get3 (data h) p j f ∧
       get3 pv p c f = get3 (variance h) p j f) ∧
    data h' = data h ∧ variance h' = variance h.
Proof.
  intros Hd Hv Hlen. unfold extract_with_mask, select_pixels. simpl.
  rewrite Hd, Hv.
  rewrite first_out_of_bounds_None.
  2:{ apply Forall_forall. intros j Hj%where_one_bound. lia. }
  eexists _, (where_one 0 mask), _, _. split; [done|]. simpl.
  do 3 (split; [done|]). split; [|split; [|split; [|split; [|split; [|split]]]]];
    try done.
  - intros j. rewrite where_one_elem. split.
    + by intros (k & -> & Hk).
    + intros Hj. by exists j.
  - apply where_one_sorted.
  - apply where_one_length.
  - intros c j p f Hc. simpl. by rewrite Hc.
Qed.

Lemma extract_with_mask_keeps_marked_pixels_witness :
  let h := HealpixInputs_init 1 2 3 None junk junk in
  ∃ h' idx,
    shape3 (data h) = (3, 12, 2) ∧ shape3 (variance h) = (3, 12, 2) ∧
    length [0; 1; 1; 2; 1]%Z ≤ 12 ∧
    extract_with_mask h [0; 1; 1; 2; 1]%Z = (h', None) ∧
    partial_indices h' = Some idx ∧ idx = [1; 2; 4].
Proof.
  intros h.
  destruct (extract_with_mask_keeps_marked_pixels h [0; 1; 1; 2; 1]%Z 3 12 2)
    as (h' & idx & pd & pv & Hrun & Hidx & _); [done | done | simpl; lia |].
  exists h', idx. split; [done|]. split; [done|]. split; [simpl; lia|].
  split; [exact Hrun|]. split; [exact Hidx|].
  vm_compute in Hrun. injection Hrun as <-. simpl in Hidx. congruence.
Defined.

(** In an increasing list of indices the first one out of bounds is the
    least one out of bounds. *)
Lemma first_out_of_bounds_least size (idx : list nat) j' :
  (∀ c c' j1 j2, c < c' → idx !! c = Some j1 → idx !! c' = Some j2 → j1 < j2) →
  first_out_of_bounds size idx = Some j' →
  ∀ j, j ∈ idx → size ≤ j → j' ≤ j.
Proof.
  unfold first_out_of_bounds.
  induction idx as [|a idx IH]; intros Hsorted Hfirst j Hj Hle;
    [by apply elem_of_nil in Hj|].
  assert (∀ c c' j1 j2, c < c' → idx !! c = Some j1 → idx !! c' = Some j2 → j1 < j2)
    as Htail.
  { intros c c' j1 j2 Hc H1 H2.
    apply (Hsorted (S c) (S c') j1 j2); [lia | done | done]. }
  rewrite filter_cons in Hfirst. apply elem_of_cons in Hj as [->|Hj].
  - rewrite decide_True in Hfirst by done. simpl in Hfirst. injection Hfirst as <-. lia.
  - destruct (decide (size ≤ a)) as [Ha|Ha].
    + simpl in Hfirst. injection Hfirst as <-.
      apply list_elem_of_lookup in Hj as [c Hc].
      pose proof (Hsorted 0 (S c) a j ltac:(lia) eq_refl Hc). lia.
    + by apply IH.
Qed.

(** A one at a position beyond the pixel axis makes [extract_with_mask]
    raise the index error of the first such position, that is the least
    marked position that is out of bounds; by then [partial_indices] has
    been overwritten, while [partial_data] and [partial_var] still are
    what they were before the call. *)
Theorem extract_with_mask_beyond_pixels (h : HealpixInputs) (mask : list Z)
    (n0 n1 n2 j : nat) :
  shape3 (data h) = (n0, n1, n2) → mask !! j = Some 1%Z → n1 ≤ j →
  ∃ h' j',
    extract_with_mask h mask = (h', Some (IndexError j' n1)) ∧
    n1 ≤ j' ∧ mask !! j' = Some 1%Z ∧
    (∀ i, mask !! i = Some 1%Z → n1 ≤ i → j' ≤ i) ∧
    partial_indices h' = Some (where_one 0 mask) ∧
    partial_data h' = partial_data h ∧ partial_var h' = partial_var h ∧
    data h' = data h ∧ variance h' = variance h.
Proof.
  intros Hd Hj Hle. unfold extract_with_mask, select_pixels. simpl. rewrite Hd.
  destruct (first_out_of_bounds_Some n1 (where_one 0 mask) j)
    as (j' & Hfirst & Hin & Hle'); [apply where_one_elem; by exists j | done |].
  rewrite Hfirst. eexists _, j'. split; [done|]. simpl.
  split; [done|]. split.
  { by apply where_one_elem in Hin as (k & -> & Hk). }
  split; [|done]. intros i Hi Hn.
  apply (first_out_of_bounds_least n1 (where_one 0 mask) j');
    [apply where_one_sorted | done | | done].
  apply where_one_elem. by exists i.
Qed.

Lemma extract_with_mask_beyond_pixels_witness :
  let h := HealpixInputs_init 1 2 3 None junk junk in
  let mask := (replicate 12 0 ++ [1; 0; 1])%Z in
  ∃ h',
    shape3 (data h) = (3, 12, 2) ∧ mask !! 14 = Some 1%Z ∧ 12 ≤ 14 ∧
    extract_with_mask h mask = (h', Some (IndexError 12 12)) ∧
    partial_indices h' = Some [12; 14] ∧ partial_data h' = None.
Proof.
  intros h mask.
  destruct (extract_with_mask_beyond_pixels h mask 3 12 2 14)
    as (h' & j' & Hrun & _ & _ & _ & Hidx & Hpd & _); [done | done | lia |].
  exists h'. split; [done|]. split; [done|]. split; [lia|].
  assert (j' = 12) as ->
    by (vm_compute in Hrun; injection Hrun as _ <-; reflexivity).
  split; [exact Hrun|]. split; [exact Hidx | exact Hpd].
Defined.

Lemma where_one_ones n : ∀ i, where_one i (replicate n 1%Z) = seq i n.
Proof. induction n as [|n IH]; intros i; simpl; [done|]. by rewrite IH. Qed.

Lemma where_one_none mask : ∀ i,
  Forall (λ m, m ≠ 1%Z) mask → where_one i mask = [].
Proof.
  induction mask as [|m mask IH]; intros i Hall; simpl; [done|].
  apply Forall_cons in Hall as [Hm Hall]. rewrite decide_False by done. by apply IH.
Qed.

(** The two extremes. With a one for every pixel the extraction returns
    the whole maps: same shape, same cells. With a mask that holds no one
    at all, of whatever length, it returns maps with no pixel and raises
    nothing. *)
Theorem extract_with_mask_extremes (h : HealpixInputs) (n0 n1 n2 : nat) :
  shape3 (data h) = (n0, n1, n2) → shape3 (variance h) = (n0, n1, n2) →
  (∃ h' pd pv,
     extract_with_mask h (replicate n1 1%Z) = (h', None) ∧
     partial_indices h' = Some (seq 0 n1) ∧
     partial_data h' = Some pd ∧ partial_var h' = Some pv ∧
     shape3 pd = shape3 (data h) ∧ shape3 pv = shape3 (variance h) ∧
     ∀ p c f, c < n1 → get3 pd p c f = get3 (data h) p c f ∧
                       get3 pv p c f = get3 (variance h) p c f) ∧
  (∀ mask, Forall (λ m, m ≠ 1%Z) mask →
     ∃ h' pd pv,
       extract_with_mask h mask = (h', None) ∧
       partial_indices h' = Some [] ∧
       partial_data h' = Some pd ∧ partial_var h' = Some pv ∧
       shape3 pd = (n0, 0, n2) ∧ shape3 pv = (n0, 0, n2)).
Proof.
  intros Hd Hv. split.
  - unfold extract_with_mask, select_pixels. simpl. rewrite Hd, Hv.
    rewrite where_one_ones.
    rewrite first_out_of_bounds_None
      by (apply Forall_forall; intros j Hj%elem_of_seq; lia).
    eexists _, _, _. split; [done|]. simpl. rewrite length_seq.
    do 5 (split; [done|]). intros p c f Hc. simpl.
    by rewrite lookup_seq_lt.
  - intros mask Hnone.
    unfold extract_with_mask, select_pixels. simpl. rewrite Hd, Hv.
    rewrite where_one_none by done. simpl.
    by eexists _, _, _.
Qed.

Lemma extract_with_mask_extremes_witness :
  let h := HealpixInputs_init 1 2 3 None junk junk in
  ∃ h',
    shape3 (data h) = (3, 12, 2) ∧ shape3 (variance h) = (3, 12, 2) ∧
    extract_with_mask h (replicate 12 1%Z) = (h', None) ∧
    partial_indices h' = Some (seq 0 12).
Proof.
  intros h.
  destruct (proj1 (extract_with_mask_extremes h 3 12 2 eq_refl eq_refl))
    as (h' & pd & pv & Hrun & Hidx & _).
  exists h'. split; [done|]. split; [done|]. split; [exact Hrun | exact Hidx].
Defined.

(** ** Reading the maps *)

Lemma assign_last_ok a i v n0 n1 n2 :
  shape3 a = (n0, n1, n2) → shape2 v = (n0, n1) → i < n2 →
  ∃ a', assign_last a i v = Ok a' ∧ shape3 a' = (n0, n1, n2) ∧
        (∀ p c, p < n0 → c < n1 → get3 a' p c i = get2 v p c) ∧
        (∀ p c f, f ≠ i → get3 a' p c f = get3 a p c f).
Proof.
  intros Ha Hv Hi. unfold assign_last. rewrite Ha, Hv.
  rewrite decide_False by lia. rewrite decide_True by tauto.
  eexists. split; [done|]. simpl. split; [done|]. split.
  - intros p c Hp Hc. rewrite decide_True by done.
    repeat case_decide; try done; f_equal; lia.
  - intros p c f Hf. by rewrite decide_False.
Qed.

(** The loop over conforming files that fit the frequency axis. *)
Lemma read_data_loop_ok `{Healpy} files fields n0 n1 n2 : ∀ h i,
  shape3 (data h) = (n0, n1, n2) → indices h = None →
  Forall (λ fn, shape2 (read_map fn fields) = (n0, n1)) files →
  i + length files ≤ n2 →
  ∃ h', read_data_loop h i files fields = (h', None) ∧
        shape3 (data h') = (n0, n1, n2) ∧
        (∀ k fn p c, files !! k = Some fn → p < n0 → c < n1 →
           get3 (data h') p c (i + k) = get2 (read_map fn fields) p c) ∧
        (∀ p c f, f < i ∨ i + length files ≤ f →
           get3 (data h') p c f = get3 (data h) p c f) ∧
        variance h' = variance h ∧ indices h' = indices h ∧
        partial_indices h' = partial_indices h ∧
        partial_data h' = partial_data h ∧ partial_var h' = partial_var h.
Proof.
  induction files as [|fn files IH]; intros h i Hshape Hix Hconf Hfit; simpl in *.
  - exists h. split; [done|]. split; [done|]. split; [|done].
    intros k fn p c Hk. by rewrite lookup_nil in Hk.
  - apply Forall_cons in Hconf as [Hfn Hconf]. rewrite Hix. simpl.
    destruct (assign_last_ok (data h) i (read_map fn fields) n0 n1 n2)
      as (d & -> & Hd & Hnew & Hold); [done | done | lia |].
    destruct (IH (set_data h d) (S i)) as (h' & -> & Hs & Hcells & Hrest & Hframe);
      [done | done | done | lia |].
    simpl in Hframe. rewrite Hix in Hframe.
    exists h'. split; [done|]. split; [done|]. split; [|split; [|done]].
    + intros [|k] fn' p c Hk Hp Hc; simpl in Hk.
      * injection Hk as <-. rewrite Nat.add_0_r.
        rewrite Hrest by lia. simpl. by apply Hnew.
      * replace (i + S k) with (S i + k) by lia. by apply Hcells.
    + intros p c f Hf. rewrite Hrest by lia. simpl. apply Hold. lia.
Qed.

(** Reading no more files than there are frequencies, each holding one
    row per polarisation and one column per pixel, into an object that
    uses all pixels raises nothing: slice [i] of the frequency axis of
    [data] then holds the map of file [i], the slices beyond the last
    file hold what they held before, and [variance] is untouched. *)
Theorem read_data_stores_each_file `{Healpy} (h : HealpixInputs)
    (files : list string) (fields : list nat) (n0 n1 n2 : nat) :
  shape3 (data h) = (n0, n1, n2) → indices h = None →
  Forall (λ fn, shape2 (read_map fn fields) = (n0, n1)) files →
  length files ≤ n2 →
  ∃ h', read_data_from_fits h files fields = (h', None) ∧
        shape3 (data h') = (n0, n1, n2) ∧
        (∀ i fn p c, files !! i = Some fn → p < n0 → c < n1 →
           get3 (data h') p c i = get2 (read_map fn fields) p c) ∧
        (∀ p c f, length files ≤ f →
           get3 (data h') p c f = get3 (data h) p c f) ∧
        variance h' = variance h.
Proof.
  intros Hshape Hix Hconf Hfit.
  destruct (read_data_loop_ok files fields n0 n1 n2 h 0)
    as (h' & Hrun & Hs & Hcells & Hrest & Hvar & _); [done | done | done | done |].
  exists h'. split; [done|]. split; [done|]. split; [exact Hcells|].
  split; [|done]. intros p c f Hf. apply Hrest. right. done.
Qed.

Lemma read_data_stores_each_file_witness :
  let h := HealpixInputs_init 1 2 3 None junk junk in
  ∃ h',
    shape3 (data h) = (3, 12, 2) ∧ indices h = None ∧
    Forall (λ fn, shape2 (read_map fn [0; 1; 2]) = (3, 12)) ["a.fits"; "bb.fits"] ∧
    length ["a.fits"; "bb.fits"] ≤ 2 ∧
    read_data_from_fits h ["a.fits"; "bb.fits"] [0; 1; 2] = (h', None) ∧
    get3 (data h') 2 11 1 = get2 (read_map "bb.fits" [0; 1; 2]) 2 11.
Proof.
  intros h.
  assert (Forall (λ fn, shape2 (read_map fn [0; 1; 2]) = (3, 12))
            ["a.fits"; "bb.fits"]) as Hconf by (repeat constructor).
  destruct (read_data_stores_each_file h ["a.fits"; "bb.fits"] [0; 1; 2] 3 12 2)
    as (h' & Hrun & _ & Hcells & _); [done | done | exact Hconf | simpl; lia |].
  exists h'. split; [done|]. split; [done|]. split; [exact Hconf|].
  split; [simpl; lia|]. split; [exact Hrun|].
  apply (Hcells 1 "bb.fits"); [done | lia | lia].
Defined.

(** The loop over conforming files that outnumber what is left of the
    frequency axis. *)
Lemma read_data_loop_overflow `{Healpy} files fields n0 n1 n2 : ∀ h i,
  shape3 (data h) = (n0, n1, n2) → indices h = None →
  Forall (λ fn, shape2 (read_map fn fields) = (n0, n1)) files →
  i ≤ n2 → n2 < i + length files →
  ∃ h', read_data_loop h i files fields = (h', Some (IndexError n2 n2)) ∧
        shape3 (data h') = (n0, n1, n2) ∧
        (∀ k fn p c, files !! k = Some fn → i + k < n2 → p < n0 → c < n1 →
           get3 (data h') p c (i + k) = get2 (read_map fn fields) p c) ∧
        (∀ p c f, f < i → get3 (data h') p c f = get3 (data h) p c f) ∧
        variance h' = variance h.
Proof.
  induction files as [|fn files IH]; intros h i Hshape Hix Hconf Hi Hover;
    simpl in *; [lia|].
  apply Forall_cons in Hconf as [Hfn Hconf]. rewrite Hix. simpl.
  destruct (decide (i = n2)) as [->|Hne].
  - unfold assign_last. rewrite Hshape, Hfn. rewrite decide_True by lia.
    exists h. split; [done|]. split; [done|]. split; [|done].
    intros k fn' p c _ Hk. lia.
  - destruct (assign_last_ok (data h) i (read_map fn fields) n0 n1 n2)
      as (d & -> & Hd & Hnew & Hold); [done | done | lia |].
    destruct (IH (set_data h d) (S i)) as (h' & -> & Hs & Hcells & Hrest & Hvar);
      [done | done | done | lia | lia |].
    exists h'. split; [done|]. split; [done|]. split; [|split; [|done]].
    + intros [|k] fn' p c Hk Hlt Hp Hc; simpl in Hk.
      * injection Hk as <-. rewrite Nat.add_0_r.
        rewrite Hrest by lia. simpl. by apply Hnew.
      * replace (i + S k) with (S i + k) in * by lia. by apply Hcells.
    + intros p c f Hf. rewrite Hrest by lia. simpl. apply Hold. lia.
Qed.

(** One file too many: with more conforming files than frequencies the
    loop stores the first [nfreqs] maps and then raises the index error
    of the frequency axis. *)
Theorem read_data_too_many_files `{Healpy} (h : HealpixInputs)
    (files : list string) (fields : list nat) (n0 n1 n2 : nat) :
  shape3 (data h) = (n0, n1, n2) → indices h = None →
  Forall (λ fn, shape2 (read_map fn fields) = (n0, n1)) files →
  n2 < length files →
  ∃ h', read_data_from_fits h files fields = (h', Some (IndexError n2 n2)) ∧
        ∀ i fn p c, files !! i = Some fn → i < n2 → p < n0 → c < n1 →
          get3 (data h') p c i = get2 (read_map fn fields) p c.
Proof.
  intros Hshape Hix Hconf Hover.
  destruct (read_data_loop_overflow files fields n0 n1 n2 h 0)
    as (h' & Hrun & _ & Hcells & _); [done | done | done | lia | done |].
  exists h'. split; [done|]. exact Hcells.
Qed.

Lemma read_data_too_many_files_witness :
  let h := HealpixInputs_init 1 2 3 None junk junk in
  ∃ h',
    shape3 (data h) = (3, 12, 2) ∧ indices h = None ∧
    2 < length ["a.fits"; "bb.fits"; "ccc.fits"] ∧
    read_data_from_fits h ["a.fits"; "bb.fits"; "ccc.fits"] [0; 1; 2]
      = (h', Some (IndexError 2 2)).
Proof.
  intros h.
  destruct (read_data_too_many_files h ["a.fits"; "bb.fits"; "ccc.fits"] [0; 1; 2]
              3 12 2) as (h' & Hrun & _);
    [done | done | repeat constructor | simpl; lia |].
  exists h'. split; [done|]. split; [done|]. split; [simpl; lia | exact Hrun].
Defined.

(** An object restricted to a subset of the pixels cannot read a map:
    [data] is allocated for all pixels, so columns selected by [idx] only
    fit (or broadcast) when there are as many of them as pixels or just
    one; otherwise the first file raises the broadcast error and nothing
    is stored. *)
Theorem read_data_with_pixel_subset `{Healpy} (h : HealpixInputs) (fn : string)
    (files : list string) (fields : list nat) (idx : list nat)
    (n0 n1 n2 m0 m1 : nat) :
  shape3 (data h) = (n0, n1, n2) → indices h = Some idx →
  shape2 (read_map fn fields) = (m0, m1) → Forall (λ j, j < m1) idx →
  0 < n2 → length idx ≠ n1 → length idx ≠ 1 →
  read_data_from_fits h (fn :: files) fields = (h, Some ValueError).
Proof.
  intros Hshape Hix Hmap Hidx Hfreq Hn1 H1.
  unfold read_data_from_fits. simpl. rewrite Hix. simpl. rewrite Hmap. simpl.
  rewrite first_out_of_bounds_None by done. simpl.
  unfold assign_last. rewrite Hshape. simpl.
  rewrite decide_False by lia. rewrite decide_False by tauto. done.
Qed.

Lemma read_data_with_pixel_subset_witness :
  let h := HealpixInputs_init 1 2 3 (Some [0; 5; 7]) junk junk in
  shape3 (data h) = (3, 12, 2) ∧ indices h = Some [0; 5; 7] ∧
  read_data_from_fits h ["a.fits"] [0; 1; 2] = (h, Some ValueError).
Proof.
  intros h. split; [done|]. split; [done|].
  apply (read_data_with_pixel_subset h "a.fits" [] [0; 1; 2] [0; 5; 7] 3 12 2 3 12);
    [done | done | done | repeat constructor; lia | lia | simpl; lia | simpl; lia].
Defined.

Lemma swap_maps_involutive h : swap_maps (swap_maps h) = h.
Proof. by destruct h. Qed.

Lemma read_variance_loop_swap `{Healpy} files fields : ∀ h i,
  read_variance_loop h i files fields =
    let '(h', e) := read_data_loop (swap_maps h) i files fields in
    (swap_maps h', e).
Proof.
  induction files as [|fn files IH]; intros h i; simpl.
  - by rewrite swap_maps_involutive.
  - destruct (select_columns (read_map fn fields) (indices h)) as [v|e]; simpl;
      [|by rewrite swap_maps_involutive].
    destruct (assign_last (variance h) i v) as [d|e]; simpl;
      [|by rewrite swap_maps_involutive].
    by rewrite IH.
Qed.

(** [read_variance_from_fits] is [read_data_from_fits] with the roles of
    [data] and [variance] exchanged: same exceptions at the same files,
    same cells written, into [variance] instead of [data], and it leaves
    [data] alone wherever reading data leaves [variance] alone. *)
Theorem read_variance_mirrors_read_data `{Healpy} (h : HealpixInputs)
    (files : list string) (fields : list nat) :
  read_variance_from_fits h files fields =
    let '(h', e) := read_data_from_fits (swap_maps h) files fields in
    (swap_maps h', e).
Proof. apply read_variance_loop_swap. Qed.
